(** * ECTorsionDetector: elliptic curves over Q, Nagell-Lutz sieve, torsion finder

    Shallow embedding of [src/src/modular_arithmetic.py],
    [src/src/elliptic_curve.py] and [src/src/torsion_finder.py].

    Python's [fractions.Fraction] is modelled by [Q]: every arithmetic
    operation is normalised with [Qred], as [Fraction] always keeps its value
    in lowest terms, and every comparison [==] of fractions is [Qeq_bool],
    i.e. a comparison of values.  Python [int] is [Z], with floor division
    and modulo ([Z.div], [Z.modulo]) as in Python. *)

From Stdlib Require Import ZArith QArith Qreduction Qcanon List Permutation String Ascii Bool Lia Lqa QNsatz.
Import ListNotations.
Open Scope Z_scope.

(** ** Exceptions raised by the code (all are [ValueError] in Python,
    told apart here by their message / trigger). *)
Inductive Err :=
| InvalidCurve        (** "Invalid curve: discriminant equals zero" *)
| NonIntegralModel    (** "Nagell-Lutz requires integral Weierstrass model" *)
| NotOnCurve          (** "Point ... is not on curve ..." *)
| NoModularInverse    (** "Modular inverse does not exist ..." *)
| ZeroDivision        (** Python's [ZeroDivisionError] of [x % 0] *)
| EmptyMax.           (** Python's [max()] of an empty sequence *)

(** ** [fractions.Fraction] arithmetic *)
Module Frac.
Definition of_int (z : Z) : Q := inject_Z z.
Definition add (x y : Q) : Q := Qred (x + y).
Definition sub (x y : Q) : Q := Qred (x - y).
Definition mul (x y : Q) : Q := Qred (x * y).
Definition div (x y : Q) : Q := Qred (x / y).
Definition neg (x : Q) : Q := Qred (- x).
Definition eqb (x y : Q) : bool := Qeq_bool x y.
(** [int(q)] truncates towards zero *)
Definition to_int (q : Q) : Z := Z.quot (Qnum q) (Zpos (Qden q)).
End Frac.

(** ** [class Point]: the identity (point at infinity) or a finite point.
    The Python class holds nullable coordinates plus an [is_identity] flag;
    the code only ever builds [Point(x, y)] with both coordinates or
    [Point.identity()], the two constructors below. *)
Inductive Point :=
| Identity
| Finite (x y : Q).

Definition is_identity (P : Point) : bool :=
  match P with Identity => true | Finite _ _ => false end.

(** [Point.__eq__] (also the key equality of the dicts and sets of points) *)
Definition point_eqb (P Q : Point) : bool :=
  match P, Q with
  | Identity, Identity => true
  | Identity, _ | _, Identity => false
  | Finite x1 y1, Finite x2 y2 => Frac.eqb x1 x2 && Frac.eqb y1 y2
  end.

(** ** [class EllipticCurve]: y^2 = x^3 + a x + b *)
Record Curve := mkCurve { ca : Q; cb : Q }.

Definition pow2 (x : Q) : Q := Frac.mul x x.
Definition pow3 (x : Q) : Q := Frac.mul (Frac.mul x x) x.

(** [discriminant]: -16(4a^3 + 27b^2) *)
Definition discriminant (c : Curve) : Q :=
  Frac.mul (Frac.of_int (-16))
    (Frac.add (Frac.mul (Frac.of_int 4) (pow3 (ca c)))
              (Frac.mul (Frac.of_int 27) (pow2 (cb c)))).

(** [EllipticCurve.__init__] (over Q, [field_mod = None]) *)
Definition make_curve (a b : Q) : Err + Curve :=
  let c := mkCurve a b in
  if Frac.eqb (discriminant c) 0 then inl InvalidCurve else inr c.

(** Modelled from the spec: [EllipticCurve.is_integral_model] is called by
    [TorsionFinder.__init__] and by the web layer but is not defined in
    [src/src/elliptic_curve.py]; the spec (section 3) defines it as "true
    iff a and b are both integers (denominator 1)". *)
Definition is_integral_model (c : Curve) : bool :=
  Pos.eqb (Qden (Qred (ca c))) 1 && Pos.eqb (Qden (Qred (cb c))) 1.

(** [is_on_curve] *)
Definition is_on_curve (c : Curve) (P : Point) : bool :=
  match P with
  | Identity => true
  | Finite x y =>
      Frac.eqb (pow2 y) (Frac.add (Frac.add (pow3 x) (Frac.mul (ca c) x)) (cb c))
  end.

(** The last step of [add]: x3 = l^2 - x1 - x2, y3 = l(x1 - x3) - y1 *)
Definition point_from_slope (l x1 y1 x2 : Q) : Point :=
  let x3 := Frac.sub (Frac.sub (pow2 l) x1) x2 in
  let y3 := Frac.sub (Frac.mul l (Frac.sub x1 x3)) y1 in
  Finite x3 y3.

(** [add]: the chord-and-tangent group law *)
Definition add (c : Curve) (P Q : Point) : Point :=
  match P, Q with
  | Identity, _ => Q
  | _, Identity => P
  | Finite x1 y1, Finite x2 y2 =>
      if Frac.eqb x1 x2 && Frac.eqb y1 (Frac.neg y2) then Identity
      else if point_eqb P Q then
        if Frac.eqb y1 0 then Identity
        else point_from_slope
               (Frac.div (Frac.add (Frac.mul (Frac.of_int 3) (pow2 x1)) (ca c))
                         (Frac.mul (Frac.of_int 2) y1)) x1 y1 x2
      else
        if Frac.eqb x2 x1 then Identity
        else point_from_slope (Frac.div (Frac.sub y2 y1) (Frac.sub x2 x1)) x1 y1 x2
  end.

(** [double] *)
Definition double (c : Curve) (P : Point) : Point := add c P P.

(** The [while n > 0] loop of [scalar_multiply], with the positive [n]
    written in binary: [xI]/[xH] is [n % 2 == 1], dropping the low bit is
    [n //= 2], and the loop stops after the last bit [xH] (the final
    doubling of [addend] there is dead and omitted). *)
Fixpoint scalar_loop (c : Curve) (result addend : Point) (n : positive) : Point :=
  match n with
  | xH => add c result addend
  | xO n' => scalar_loop c result (double c addend) n'
  | xI n' => scalar_loop c (add c result addend) (double c addend) n'
  end.

(** [Point(P.x, -P.y) if not P.is_identity else P] *)
Definition negate (P : Point) : Point :=
  match P with
  | Identity => P
  | Finite x y => Finite x (Frac.neg y)
  end.

(** [scalar_multiply] *)
Definition scalar_multiply (c : Curve) (P : Point) (n : Z) : Point :=
  match n with
  | Z0 => Identity
  | Zpos p => scalar_loop c Identity P p
  | Zneg p => scalar_loop c Identity (negate P) p
  end.

(** The naive k-fold repeated addition: the running total of [find_order]
    and [check_torsion], [current := add(current, P)] from [current = P]. *)
Fixpoint mult_naive (c : Curve) (P : Point) (k : nat) : Point :=
  match k with
  | O => Identity
  | S k' => add c (mult_naive c P k') P
  end.

(** The [for n in range(1, max_order + 1)] loop of [find_order]: [k] is
    the number of iterations left, [n] the loop variable. *)
Fixpoint find_order_loop (c : Curve) (P current : Point) (n : Z) (k : nat) : option Z :=
  match k with
  | O => None
  | S k' =>
      if is_identity current then Some n
      else find_order_loop c P (add c current P) (n + 1) k'
  end.

(** [find_order(P, max_order)]; [range(1, max_order + 1)] has
    [max(max_order, 0)] elements. *)
Definition find_order (c : Curve) (P : Point) (max_order : Z) : option Z :=
  if is_identity P then Some 1
  else find_order_loop c P P 1 (Z.to_nat max_order).

(** [EllipticCurve.is_torsion(P, max_order)]: [(order is not None, order)] *)
Definition ec_is_torsion (c : Curve) (P : Point) (max_order : Z) : bool * option Z :=
  let o := find_order c P max_order in
  (match o with Some _ => true | None => false end, o).

(** ** [class ModularArithmetic] *)
Module ModularArithmetic.

(** [extended_gcd], recursive on [a]; every call shrinks [|a|] (the
    recursive argument [b % a] has [|b % a| < |a|]), so [|a| + 1] rounds
    of fuel are enough: see [extended_gcd_eq] below. *)
Fixpoint egcd_fuel (fuel : nat) (a b : Z) : Z * Z * Z :=
  match fuel with
  | O => (b, 0, 1)
  | S f =>
      if a =? 0 then (b, 0, 1)
      else
        let '(g, x1, y1) := egcd_fuel f (b mod a) a in
        (g, y1 - (b / a) * x1, x1)
  end.

Definition extended_gcd (a b : Z) : Z * Z * Z :=
  egcd_fuel (S (Z.to_nat (Z.abs a))) a b.

(** [modular_inverse]: [(x % m + m) % m] raises [ZeroDivisionError]
    when [m = 0]. *)
Definition modular_inverse (a m : Z) : Err + Z :=
  let '(g, x, _) := extended_gcd a m in
  if negb (g =? 1) then inl NoModularInverse
  else if m =? 0 then inl ZeroDivision
  else inr ((x mod m + m) mod m).

(** [mod_divide(a, b, m)]: [(a * b_inv) % m] *)
Definition mod_divide (a b m : Z) : Err + Z :=
  match modular_inverse b m with
  | inl e => inl e
  | inr b_inv => if m =? 0 then inl ZeroDivision else inr ((a * b_inv) mod m)
  end.

(** [is_coprime(a, b)] *)
Definition is_coprime (a b : Z) : bool :=
  let '(g, _, _) := extended_gcd a b in g =? 1.

End ModularArithmetic.

(** ** Python helpers: [range], [set.add], [str(int)] *)

(** [range(lo, hi)] *)
Definition z_range (lo hi : Z) : list Z :=
  map (fun i => lo + Z.of_nat i) (seq 0 (Z.to_nat (hi - lo))).

(** [s.add(x)] on a set of ints (a set is a duplicate-free list here; the
    iteration order of a Python set is not modelled, only its members) *)
Definition zset_add (x : Z) (s : list Z) : list Z :=
  if existsb (Z.eqb x) s then s else s ++ [x].

(** [s.add(P)] on a set of points (hash/eq of [Point]) *)
Definition pset_add (P : Point) (s : list Point) : list Point :=
  if existsb (point_eqb P) s then s else s ++ [P].

Definition digit_char (d : Z) : ascii := ascii_of_nat (48 + Z.to_nat d).

Fixpoint str_pos_aux (fuel : nat) (n : Z) (acc : string) : string :=
  match fuel with
  | O => acc
  | S f =>
      if n <? 10 then String (digit_char n) acc
      else str_pos_aux f (n / 10) (String (digit_char (n mod 10)) acc)
  end.

(** [str(n)] / the [{n}] of an f-string *)
Definition str_int (n : Z) : string :=
  match n with
  | Z0 => "0"
  | Zpos p => str_pos_aux (Pos.size_nat p) n EmptyString
  | Zneg p => String "-" (str_pos_aux (Pos.size_nat p) (Zpos p) EmptyString)
  end.

(** ** [class TorsionFinder] *)

(** [torsion_cache: Dict[Point, int]], as an association list keyed by
    [Point.__eq__] *)
Definition Cache := list (Point * Z).

Fixpoint cache_lookup (P : Point) (c : Cache) : option Z :=
  match c with
  | [] => None
  | (k, v) :: t => if point_eqb P k then Some v else cache_lookup P t
  end.

(** [d[P] = v]: overwrite the value of an existing key, else append *)
Fixpoint dict_set {V : Type} (P : Point) (v : V) (c : list (Point * V)) : list (Point * V) :=
  match c with
  | [] => [(P, v)]
  | (k, w) :: t => if point_eqb P k then (k, v) :: t else (k, w) :: dict_set P v t
  end.

Record TorsionFinder := mkFinder { tf_curve : Curve; tf_cache : Cache }.

Definition MAZUR_CYCLIC_ORDERS : list Z := [1; 2; 3; 4; 5; 6; 7; 8; 9; 10; 12].
Definition MAZUR_MAX_ORDER : Z := 12.

(** [TorsionFinder.__init__] *)
Definition new_finder (c : Curve) : Err + TorsionFinder :=
  if is_integral_model c then inr (mkFinder c []) else inl NonIntegralModel.

(** The dict returned by [check_torsion] *)
Record TorsionResult := mkResult {
  is_torsion : bool;
  order : option Z;
  multiples : list Point }.

(** The [for n in range(1, MAZUR_MAX_ORDER + 1)] loop of [check_torsion]:
    [k] is the number of iterations left.  [Some n] is the early return
    (where the cache is written), [None] the fall-through. *)
Fixpoint torsion_scan (c : Curve) (P current : Point) (n : Z) (k : nat)
    (ms : list Point) : option Z * list Point :=
  match k with
  | O => (None, ms)
  | S k' =>
      if is_identity current then (Some n, ms)
      else torsion_scan c P (add c current P) (n + 1) k' (ms ++ [current])
  end.

(** The loop of [_compute_multiples] *)
Fixpoint multiples_loop (c : Curve) (P current : Point) (k : nat) : list Point :=
  match k with
  | O => []
  | S k' => current :: multiples_loop c P (add c current P) k'
  end.

(** [_compute_multiples(P, order)]: [range(order - 1)] *)
Definition compute_multiples (c : Curve) (P : Point) (ord : Z) : list Point :=
  multiples_loop c P P (Z.to_nat (ord - 1)).

(** [check_torsion(P)], returning the result (or the exception) and the
    finder with its possibly updated cache *)
Definition check_torsion (tf : TorsionFinder) (P : Point)
    : (Err + TorsionResult) * TorsionFinder :=
  let c := tf_curve tf in
  if negb (is_on_curve c P) then (inl NotOnCurve, tf)
  else
    match cache_lookup P (tf_cache tf) with
    | Some o => (inr (mkResult true (Some o) (compute_multiples c P o)), tf)
    | None =>
        match torsion_scan c P P 1 (Z.to_nat MAZUR_MAX_ORDER) [] with
        | (Some n, ms) =>
            (inr (mkResult true (Some n) ms), mkFinder c (dict_set P n (tf_cache tf)))
        | (None, ms) => (inr (mkResult false None ms), tf)
        end
    end.

(** [_integer_divisors(n)] *)
Definition integer_divisors (n0 : Z) : list Z :=
  let n := Z.abs n0 in
  let divs := fold_left
      (fun s d => if n mod d =? 0 then zset_add (n / d) (zset_add d s) else s)
      (z_range 1 (Z.sqrt n + 1)) [] in
  fold_left (fun s d => zset_add (- d) (zset_add d s)) divs [].

(** The sieve, the subgroup search and the theorem check depend on the
    x-window [bound = int(abs(y)**(2/3) + abs(A) + abs(B) + 10)] of
    [_nagell_lutz_candidates], a floating-point computation; it is kept
    abstract as [xwin y A B], and everything below holds for any value of
    it. *)
Section Sieve.
Variable xwin : Z -> Z -> Z -> Z.

(** [_nagell_lutz_candidates()] *)
Definition nagell_lutz_candidates (tf : TorsionFinder) : list Point :=
  let c := tf_curve tf in
  let A := Frac.to_int (ca c) in
  let B := Frac.to_int (cb c) in
  let Delta := Z.abs (Frac.to_int (discriminant c)) in
  let y_values := fold_left
      (fun s d => if negb (d =? 0) && (Delta mod (d * d) =? 0) then zset_add d s else s)
      (integer_divisors Delta) [0] in
  fold_left
    (fun s y =>
       let bound := xwin y A B in
       fold_left
         (fun s x =>
            if y * y =? x * x * x + A * x + B then
              let P := Finite (Frac.of_int x) (Frac.of_int y) in
              if is_on_curve c P then pset_add P s else s
            else s)
         (z_range (- bound) (bound + 1)) s)
    y_values [Identity].

(** The dict returned by [find_torsion_subgroup] *)
Record SubgroupResult := mkSubgroup {
  torsion_points : list Point;
  orders : list (Point * Z);
  group_structure : string;
  size : Z }.

(** [max(orders.values())] *)
Definition max_values (vs : list Z) : option Z :=
  match vs with
  | [] => None
  | v :: t => Some (fold_left Z.max t v)
  end.

(** [_analyze_group_structure(points, orders)] *)
Definition analyze_group_structure (points : list Point) (ords : list (Point * Z))
    : Err + string :=
  if (List.length points =? 0)%nat then inr "Trivial"%string
  else if (List.length points =? 1)%nat then inr "Z/1Z"%string
  else
    let sz := Z.of_nat (List.length points) in
    match max_values (map snd ords) with
    | None => inl EmptyMax
    | Some max_order =>
        if sz =? max_order then inr ("Z/" ++ str_int max_order ++ "Z")%string
        else
          let order_2_count := Z.of_nat (List.length (filter (fun o => o =? 2) (map snd ords))) in
          if (order_2_count >=? 3) && (sz =? 2 * max_order) then
            inr ("Z/2Z x Z/" ++ str_int max_order ++ "Z")%string
          else
            inr ("Unknown (size=" ++ str_int sz ++ ", max_order="
                 ++ str_int max_order ++ ")")%string
    end.

(** The [for P in candidate_points] loop of [find_torsion_subgroup]; a
    result with [is_torsion = True] always carries an order. *)
Fixpoint classify_all (tf : TorsionFinder) (cands : list Point)
    (pts : list Point) (ords : list (Point * Z))
    : (Err + (list Point * list (Point * Z))) * TorsionFinder :=
  match cands with
  | [] => (inr (pts, ords), tf)
  | P :: rest =>
      match check_torsion tf P with
      | (inl e, tf') => (inl e, tf')
      | (inr r, tf') =>
          match is_torsion r, order r with
          | true, Some o => classify_all tf' rest (pts ++ [P]) (dict_set P o ords)
          | _, _ => classify_all tf' rest pts ords
          end
      end
  end.

(** [find_torsion_subgroup()] *)
Definition find_torsion_subgroup (tf : TorsionFinder)
    : (Err + SubgroupResult) * TorsionFinder :=
  match classify_all tf (nagell_lutz_candidates tf) [] [] with
  | (inl e, tf') => (inl e, tf')
  | (inr (pts, ords), tf') =>
      match analyze_group_structure pts ords with
      | inl e => (inl e, tf')
      | inr gs => (inr (mkSubgroup pts ords gs (Z.of_nat (List.length pts))), tf')
      end
  end.

(** The dict returned by [verify_torsion_theorem] *)
Record VerifyResult := mkVerify {
  is_valid : bool;
  v_size : Z;
  structure : string;
  conforms_to_mazur : bool;
  v_torsion_points : list Point }.

(** [verify_torsion_theorem()] *)
Definition verify_torsion_theorem (tf : TorsionFinder)
    : (Err + VerifyResult) * TorsionFinder :=
  match find_torsion_subgroup tf with
  | (inl e, tf') => (inl e, tf')
  | (inr td, tf') =>
      let sz := size td in
      let valid_sizes := MAZUR_CYCLIC_ORDERS ++ [4; 8; 12; 16] in
      let ok := existsb (Z.eqb sz) valid_sizes || (sz =? 1) in
      (inr (mkVerify ok sz (group_structure td) ok (torsion_points td)), tf')
  end.

(** [TorsionFinder(curve).find_torsion_subgroup()] *)
Definition torsion_subgroup_of (c : Curve) : Err + SubgroupResult :=
  match new_finder c with
  | inl e => inl e
  | inr tf => fst (find_torsion_subgroup tf)
  end.

End Sieve.

(** A concrete x-window for evaluation: [int(|y|^(2/3))] replaced by the
    integer cube root of [y^2], which it approximates. *)
Definition xwin_exact (y A B : Z) : Z :=
  Z.of_nat (List.length (filter (fun k => Z.of_nat k ^ 3 <=? y * y) (seq 1 (Z.to_nat (Z.abs y + 1)))))
  + Z.abs A + Z.abs B + 10.

Definition curve_m1_0 : Curve := mkCurve (-1) 0.
Definition finder_m1_0 : TorsionFinder := mkFinder curve_m1_0 [].

(** ** The order cache invariant (the property every entry of
    [torsion_cache] is meant to have) *)

(** An entry [P -> n]: [P] on the curve, [1 <= n <= 12], [nP = O] and no
    smaller positive multiple is [O]. *)
Definition entry_ok (c : Curve) (e : Point * Z) : Prop :=
  let '(k, n) := e in
  is_on_curve c k = true /\ 1 <= n <= 12 /\
  mult_naive c k (Z.to_nat n) = Identity /\
  (forall m, (1 <= m < Z.to_nat n)%nat -> mult_naive c k m <> Identity).

Definition cache_inv (tf : TorsionFinder) : Prop :=
  Forall (entry_ok (tf_curve tf)) (tf_cache tf).

(** * Proofs *)

(** ** Fractions *)

Ltac qred_out := repeat setoid_rewrite Qred_correct.

Lemma eqb_compat x x' y y' : x == x' -> y == y' -> Frac.eqb x y = Frac.eqb x' y'.
Proof.
  intros Hx Hy. unfold Frac.eqb.
  destruct (Qeq_bool x y) eqn:E1, (Qeq_bool x' y') eqn:E2; auto.
  - apply Qeq_bool_iff in E1. apply Qeq_bool_neq in E2.
    exfalso. apply E2. rewrite <- Hx, <- Hy. exact E1.
  - apply Qeq_bool_iff in E2. apply Qeq_bool_neq in E1.
    exfalso. apply E1. rewrite Hx, Hy. exact E2.
Qed.

Lemma eqb_true x y : Frac.eqb x y = true <-> x == y.
Proof. apply Qeq_bool_iff. Qed.

Lemma eqb_false x y : Frac.eqb x y = false <-> ~ x == y.
Proof.
  unfold Frac.eqb. split; [apply Qeq_bool_neq|].
  intros H. destruct (Qeq_bool x y) eqn:E; auto.
  apply Qeq_bool_iff in E. contradiction.
Qed.

Lemma eqb_sym x y : Frac.eqb x y = Frac.eqb y x.
Proof.
  destruct (Frac.eqb x y) eqn:E; symmetry.
  - apply eqb_true in E. apply eqb_true. symmetry. exact E.
  - apply eqb_false in E. apply eqb_false. intro H. apply E. symmetry. exact H.
Qed.

Lemma Qred_of_int z : Qred (inject_Z z) = inject_Z z.
Proof. apply Qred_identity. simpl. apply Z.gcd_1_r. Qed.

(** ** Points *)

Lemma point_eqb_sym P Q : point_eqb P Q = point_eqb Q P.
Proof.
  destruct P, Q; simpl; auto. rewrite (eqb_sym x), (eqb_sym y). reflexivity.
Qed.

Lemma point_eqb_refl P : point_eqb P P = true.
Proof.
  destruct P; simpl; auto. apply andb_true_iff; split; apply eqb_true; reflexivity.
Qed.

Lemma point_from_slope_compat l l' x1 x1' y1 y1' x2 x2' :
  l == l' -> x1 == x1' -> y1 == y1' -> x2 == x2' ->
  point_from_slope l x1 y1 x2 = point_from_slope l' x1' y1' x2'.
Proof.
  intros Hl H1 H2 H3. unfold point_from_slope, Frac.sub, Frac.mul, pow2.
  f_equal; apply Qred_complete; qred_out;
    rewrite Hl, H1, H3; try rewrite H2; reflexivity.
Qed.

(** The chord through [(x1,y1)] and [(x2,y2)] does not depend on the order
    of the two points. *)
Lemma point_from_slope_chord_sym x1 y1 x2 y2 : ~ x2 == x1 ->
  point_from_slope (Frac.div (Frac.sub y2 y1) (Frac.sub x2 x1)) x1 y1 x2 =
  point_from_slope (Frac.div (Frac.sub y1 y2) (Frac.sub x1 x2)) x2 y2 x1.
Proof.
  intros H.
  assert (D1 : ~ x2 - x1 == 0) by (intro E; apply H; lra).
  assert (D2 : ~ x1 - x2 == 0) by (intro E; apply H; lra).
  unfold point_from_slope, Frac.sub, Frac.mul, Frac.div, pow2.
  f_equal; apply Qred_complete; qred_out; field; auto.
Qed.

Lemma neg_test_sym y1 y2 : Frac.eqb y1 (Frac.neg y2) = Frac.eqb y2 (Frac.neg y1).
Proof.
  unfold Frac.neg. rewrite (eqb_compat y1 y1 (Qred (- y2)) (- y2)) by (try apply Qred_correct; reflexivity).
  rewrite (eqb_compat y2 y2 (Qred (- y1)) (- y1)) by (try apply Qred_correct; reflexivity).
  destruct (Frac.eqb y1 (- y2)) eqn:E; symmetry.
  - apply eqb_true in E. apply eqb_true. rewrite E. ring.
  - apply eqb_false in E. apply eqb_false. intro F. apply E. rewrite F. ring.
Qed.

(** ** C6: the group law is commutative *)

(** C6: for all points [P] and [Q] and every curve, [add(P, Q) = add(Q, P)],
    in every branch of [add]: an identity argument, [Q] the inverse of [P],
    doubling ([P = Q]) and the chord case. *)
Theorem add_comm (c : Curve) (P Q : Point) : add c P Q = add c Q P.
Proof.
  destruct P as [|x1 y1], Q as [|x2 y2]; try reflexivity.
  unfold add. rewrite (eqb_sym x1 x2), (neg_test_sym y1 y2).
  destruct (Frac.eqb x2 x1 && Frac.eqb y2 (Frac.neg y1)); [reflexivity|].
  rewrite (point_eqb_sym (Finite x1 y1)).
  destruct (point_eqb (Finite x2 y2) (Finite x1 y1)) eqn:E.
  - simpl in E. apply andb_true_iff in E as [Ex Ey].
    apply eqb_true in Ex, Ey.
    rewrite (eqb_compat y1 y2 0 0) by (auto; symmetry; auto; reflexivity).
    destruct (Frac.eqb y2 0); [reflexivity|].
    apply point_from_slope_compat; auto; try (symmetry; auto).
    unfold Frac.div, Frac.add, Frac.mul, pow2.
    qred_out. rewrite Ex, Ey. reflexivity.
  - rewrite (eqb_sym x2 x1).
    destruct (Frac.eqb x1 x2) eqn:F; [reflexivity|].
    apply eqb_false in F.
    apply point_from_slope_chord_sym. intro G. apply F. symmetry. exact G.
Qed.

(** ** Value equality of points is respected by the group law *)

Lemma point_eqb_finite x1 y1 x2 y2 :
  point_eqb (Finite x1 y1) (Finite x2 y2) = true <-> x1 == x2 /\ y1 == y2.
Proof.
  simpl. rewrite andb_true_iff, !eqb_true. tauto.
Qed.

Lemma point_eqb_trans P Q R :
  point_eqb P Q = true -> point_eqb Q R = true -> point_eqb P R = true.
Proof.
  destruct P as [|x1 y1], Q as [|x2 y2], R as [|x3 y3]; simpl; auto; try discriminate.
  rewrite !andb_true_iff, !eqb_true. intros [A B] [C D]. split.
  - rewrite A; exact C.
  - rewrite B; exact D.
Qed.

Lemma point_eqb_identity P : point_eqb P Identity = true -> P = Identity.
Proof. destruct P; simpl; auto; discriminate. Qed.

Lemma add_compat c P P' Q Q' :
  point_eqb P P' = true -> point_eqb Q Q' = true ->
  point_eqb (add c P Q) (add c P' Q') = true.
Proof.
  destruct P as [|x1 y1], P' as [|x1' y1']; try discriminate;
  destruct Q as [|x2 y2], Q' as [|x2' y2']; try discriminate; intros HP HQ;
  try exact HQ; try exact HP.
  apply point_eqb_finite in HP as [H1 H2]. apply point_eqb_finite in HQ as [H3 H4].
  assert (Hn : Frac.neg y2 == Frac.neg y2')
    by (unfold Frac.neg; qred_out; rewrite H4; reflexivity).
  unfold add.
  rewrite (eqb_compat x1 x1' x2 x2'), (eqb_compat y1 y1' (Frac.neg y2) (Frac.neg y2')) by auto.
  destruct (_ && _); [reflexivity|].
  assert (Hpe : point_eqb (Finite x1 y1) (Finite x2 y2)
                = point_eqb (Finite x1' y1') (Finite x2' y2')).
  { simpl. rewrite (eqb_compat x1 x1' x2 x2'), (eqb_compat y1 y1' y2 y2') by auto.
    reflexivity. }
  rewrite Hpe. destruct (point_eqb (Finite x1' y1') (Finite x2' y2')).
  - rewrite (eqb_compat y1 y1' 0 0) by (auto; reflexivity).
    destruct (Frac.eqb y1' 0); [reflexivity|].
    erewrite point_from_slope_compat; [apply point_eqb_refl| | eauto | eauto | eauto].
    unfold Frac.div, Frac.add, Frac.mul, pow2. qred_out.
    rewrite H1, H2. reflexivity.
  - rewrite (eqb_compat x2 x2' x1 x1') by auto.
    destruct (Frac.eqb x2' x1'); [reflexivity|].
    erewrite point_from_slope_compat; [apply point_eqb_refl| | eauto | eauto | eauto].
    unfold Frac.div, Frac.sub. qred_out.
    rewrite H1, H2, H3, H4. reflexivity.
Qed.

Lemma mult_naive_compat c P P' n :
  point_eqb P P' = true -> point_eqb (mult_naive c P n) (mult_naive c P' n) = true.
Proof.
  intros H. induction n as [|n IH]; simpl; [reflexivity|].
  apply add_compat; auto.
Qed.

Lemma mult_naive_identity_compat c P P' n :
  point_eqb P P' = true ->
  mult_naive c P n = Identity <-> mult_naive c P' n = Identity.
Proof.
  intros H. pose proof (mult_naive_compat c P P' n H) as E.
  split; intros F; rewrite F in E.
  - rewrite point_eqb_sym in E. apply point_eqb_identity. exact E.
  - apply point_eqb_identity. exact E.
Qed.

Lemma mult_naive_one c P : mult_naive c P 1 = P.
Proof. reflexivity. Qed.

Lemma is_identity_true P : is_identity P = true <-> P = Identity.
Proof. destruct P; simpl; split; congruence. Qed.

(** ** The loops of [check_torsion] and [_compute_multiples] *)

Section Loops.
Variables (c : Curve) (P : Point).
Abbreviation M := (mult_naive c P).

Lemma multiples_loop_mult j k :
  multiples_loop c P (M j) k = map M (seq j k).
Proof.
  revert j. induction k as [|k IH]; intros j; simpl; [reflexivity|].
  f_equal. apply (IH (S j)).
Qed.

Lemma torsion_scan_result j k acc r ms :
  torsion_scan c P (M j) (Z.of_nat j) k acc = (r, ms) ->
  match r with
  | Some o =>
      exists n, o = Z.of_nat n /\ (j <= n < j + k)%nat /\ M n = Identity /\
        (forall m, (j <= m < n)%nat -> M m <> Identity) /\
        ms = acc ++ map M (seq j (n - j))
  | None =>
      (forall m, (j <= m < j + k)%nat -> M m <> Identity) /\
      ms = acc ++ map M (seq j k)
  end.
Proof.
  revert j acc. induction k as [|k IH]; intros j acc H; simpl in H.
  - inversion H; subst. split; [intros; lia | rewrite app_nil_r; reflexivity].
  - destruct (is_identity (M j)) eqn:E.
    + inversion H; subst. apply is_identity_true in E.
      exists j. split; [reflexivity|]. split; [lia|]. split; [exact E|].
      split; [intros; lia|]. rewrite Nat.sub_diag. simpl. rewrite app_nil_r. reflexivity.
    + replace (Z.of_nat j + 1) with (Z.of_nat (S j)) in H by lia.
      change (add c (M j) P) with (M (S j)) in H.
      specialize (IH (S j) (acc ++ [M j]) H).
      assert (NJ : M j <> Identity) by (intro F; rewrite F in E; discriminate).
      destruct r as [o|].
      * destruct IH as (n & Ho & Hn & Hid & Hmin & Hms).
        exists n. split; [exact Ho|]. split; [lia|]. split; [exact Hid|]. split.
        { intros m Hm. destruct (Nat.eq_dec m j); [subst; exact NJ|]. apply Hmin. lia. }
        rewrite Hms, <- app_assoc. f_equal.
        replace (n - j)%nat with (S (n - S j)) by lia. reflexivity.
      * destruct IH as [Hall Hms]. split.
        { intros m Hm. destruct (Nat.eq_dec m j); [subst; exact NJ|]. apply Hall. lia. }
        rewrite Hms, <- app_assoc. reflexivity.
Qed.

Lemma least_unique n n' :
  (1 <= n)%nat -> (1 <= n')%nat -> M n = Identity -> M n' = Identity ->
  (forall m, (1 <= m < n)%nat -> M m <> Identity) ->
  (forall m, (1 <= m < n')%nat -> M m <> Identity) -> n = n'.
Proof.
  intros H1 H1' E E' L L'.
  destruct (Nat.lt_total n n') as [Lt|[Eq|Gt]]; auto.
  - exfalso. apply (L' n); [lia | exact E].
  - exfalso. apply (L n'); [lia | exact E'].
Qed.

End Loops.

(** ** The cache as a dict *)

Lemma cache_lookup_in P cache o :
  cache_lookup P cache = Some o -> exists k, In (k, o) cache /\ point_eqb P k = true.
Proof.
  induction cache as [|[k v] t IH]; simpl; [discriminate|].
  destruct (point_eqb P k) eqn:E; intros H.
  - inversion H; subst. exists k. auto.
  - destruct (IH H) as (k' & Hin & Hk). exists k'. auto.
Qed.

Lemma dict_set_none {V} P (v : V) (d : list (Point * V)) :
  (forall k w, In (k, w) d -> point_eqb P k = false) -> dict_set P v d = d ++ [(P, v)].
Proof.
  induction d as [|[k w] t IH]; intros H; simpl; [reflexivity|].
  rewrite (H k w) by (left; reflexivity). f_equal. apply IH. intros; eapply H; right; eauto.
Qed.

Lemma cache_lookup_none P cache :
  cache_lookup P cache = None -> forall k w, In (k, w) cache -> point_eqb P k = false.
Proof.
  induction cache as [|[k v] t IH]; simpl; [tauto|].
  destruct (point_eqb P k) eqn:E; [discriminate|]. intros H k' w [F|F].
  - inversion F; subst; exact E.
  - eapply IH; eauto.
Qed.

Lemma cache_lookup_dict_set P v cache : cache_lookup P (dict_set P v cache) = Some v.
Proof.
  induction cache as [|[k w] t IH]; simpl.
  - rewrite point_eqb_refl. reflexivity.
  - destruct (point_eqb P k) eqn:E; simpl; rewrite E; auto.
Qed.

(** ** [check_torsion] *)

Lemma check_torsion_eq c cache P :
  check_torsion (mkFinder c cache) P =
  if negb (is_on_curve c P) then (inl NotOnCurve, mkFinder c cache)
  else
    match cache_lookup P cache with
    | Some o => (inr (mkResult true (Some o) (compute_multiples c P o)), mkFinder c cache)
    | None =>
        match torsion_scan c P P 1 12 [] with
        | (Some n, ms) => (inr (mkResult true (Some n) ms), mkFinder c (dict_set P n cache))
        | (None, ms) => (inr (mkResult false None ms), mkFinder c cache)
        end
    end.
Proof. reflexivity. Qed.

Ltac ct_simpl := cbn [negb fst snd tf_curve tf_cache is_torsion order multiples].

Lemma check_torsion_curve tf P : tf_curve (snd (check_torsion tf P)) = tf_curve tf.
Proof.
  destruct tf as [c cache]. rewrite check_torsion_eq.
  destruct (is_on_curve c P); ct_simpl; [|reflexivity].
  destruct (cache_lookup P cache); [reflexivity|].
  destruct (torsion_scan c P P 1 12 []) as [[n|] ms]; reflexivity.
Qed.

Lemma check_torsion_inv tf P : cache_inv tf -> cache_inv (snd (check_torsion tf P)).
Proof.
  destruct tf as [c cache]. unfold cache_inv. ct_simpl. intros Hinv.
  rewrite check_torsion_eq.
  destruct (is_on_curve c P) eqn:Hon; ct_simpl; [|exact Hinv].
  destruct (cache_lookup P cache) eqn:L; [exact Hinv|].
  destruct (torsion_scan c P P 1 12 []) as [[o|] ms] eqn:S; ct_simpl; [|exact Hinv].
  change (torsion_scan c P (mult_naive c P 1) (Z.of_nat 1) 12 [] = (Some o, ms)) in S.
  apply torsion_scan_result in S.
  destruct S as (n & Ho & Hn & Hid & Hmin & _).
  rewrite (dict_set_none P o cache (cache_lookup_none P cache L)).
  apply Forall_app. split; [exact Hinv|]. constructor; [|constructor].
  cbn. subst o. rewrite Nat2Z.id. split; [exact Hon|]. split; [lia|].
  split; [exact Hid|]. intros m Hm. apply Hmin. lia.
Qed.

Lemma check_torsion_non_torsion tf P r :
  fst (check_torsion tf P) = inr r -> is_torsion r = false -> snd (check_torsion tf P) = tf.
Proof.
  destruct tf as [c cache]. rewrite check_torsion_eq.
  destruct (is_on_curve c P); ct_simpl; [|reflexivity].
  destruct (cache_lookup P cache); ct_simpl.
  - intros H; inversion H; subst; ct_simpl; discriminate.
  - destruct (torsion_scan c P P 1 12 []) as [[n|] ms]; ct_simpl; [|reflexivity].
    intros H; inversion H; subst; ct_simpl; discriminate.
Qed.

Lemma check_torsion_on_curve tf P :
  is_on_curve (tf_curve tf) P = true -> exists r, fst (check_torsion tf P) = inr r.
Proof.
  destruct tf as [c cache]. rewrite check_torsion_eq. ct_simpl. intros Hon.
  rewrite Hon; ct_simpl.
  destruct (cache_lookup P cache); [eexists; reflexivity|].
  destruct (torsion_scan c P P 1 12 []) as [[n|] ms]; eexists; reflexivity.
Qed.

Lemma check_torsion_error tf P e : fst (check_torsion tf P) = inl e -> e = NotOnCurve.
Proof.
  destruct tf as [c cache]. rewrite check_torsion_eq.
  destruct (is_on_curve c P); ct_simpl; [|congruence].
  destruct (cache_lookup P cache); ct_simpl; [discriminate|].
  destruct (torsion_scan c P P 1 12 []) as [[n|] ms]; discriminate.
Qed.

(** ** C2: the result of [check_torsion] *)

(** C2: for a point [P] on the curve, [check_torsion(P)] returns
    [is_torsion = True], order [n] and multiples [[P, ..., (n-1)P]] when [n]
    in [[1, 12]] is the least positive integer with [nP = O] (n-fold
    repeated addition); when no [n <= 12] has [nP = O] it returns
    [is_torsion = False], order [None] and the 12 multiples [[P, ..., 12P]]
    (a result, not an exception); a point off the curve raises NotOnCurve.
    Stated for every finder whose cache has the invariant of C9, i.e. every
    finder the code can build. *)
Theorem check_torsion_spec (tf : TorsionFinder) (P : Point) :
  cache_inv tf ->
  (is_on_curve (tf_curve tf) P = true ->
     (forall n, (1 <= n <= 12)%nat -> mult_naive (tf_curve tf) P n = Identity ->
        (forall m, (1 <= m < n)%nat -> mult_naive (tf_curve tf) P m <> Identity) ->
        fst (check_torsion tf P) =
          inr (mkResult true (Some (Z.of_nat n))
                 (map (mult_naive (tf_curve tf) P) (seq 1 (n - 1))))) /\
     ((forall n, (1 <= n <= 12)%nat -> mult_naive (tf_curve tf) P n <> Identity) ->
        fst (check_torsion tf P) =
          inr (mkResult false None (map (mult_naive (tf_curve tf) P) (seq 1 12))))) /\
  (is_on_curve (tf_curve tf) P = false -> fst (check_torsion tf P) = inl NotOnCurve).
Proof.
  intros Hinv. destruct tf as [c cache]. unfold cache_inv in Hinv; cbn [tf_curve tf_cache] in *.
  rewrite check_torsion_eq.
  split; [intros Hon | intros Hoff; rewrite Hoff; reflexivity].
  rewrite Hon; ct_simpl.
  destruct (cache_lookup P cache) as [o|] eqn:L.
  - destruct (cache_lookup_in _ _ _ L) as (k & Hin & Hpk).
    rewrite Forall_forall in Hinv. destruct (Hinv _ Hin) as (_ & Ho & Hid & Hmin).
    assert (T : forall m, mult_naive c P m = Identity <-> mult_naive c k m = Identity)
      by (intro; apply mult_naive_identity_compat; auto).
    split.
    + intros n Hn Hidn Hminn.
      assert (E : Z.to_nat o = n).
      { apply (least_unique c P); try lia; auto.
        - apply T; auto.
        - intros m Hm F. apply (Hmin m Hm). apply T. exact F. }
      replace o with (Z.of_nat n) by lia. ct_simpl. unfold compute_multiples.
      replace (Z.to_nat (Z.of_nat n - 1)) with (n - 1)%nat by lia.
      change (multiples_loop c P P (n - 1)) with
        (multiples_loop c P (mult_naive c P 1) (n - 1)).
      rewrite multiples_loop_mult. reflexivity.
    + intros Hnone. exfalso. apply (Hnone (Z.to_nat o)); [lia | apply T; auto].
  - destruct (torsion_scan c P P 1 12 []) as [r ms] eqn:S.
    change (torsion_scan c P (mult_naive c P 1) (Z.of_nat 1) 12 [] = (r, ms)) in S.
    apply torsion_scan_result in S. destruct r as [o|].
    + destruct S as (n' & Ho & Hn' & Hid' & Hmin' & Hms). split.
      * intros n Hn Hid Hmin.
        assert (n = n') by (apply (least_unique c P); auto; lia).
        subst. ct_simpl. reflexivity.
      * intros Hnone. exfalso. apply (Hnone n'); [lia | auto].
    + destruct S as [Hall Hms]. split.
      * intros n Hn Hid. exfalso. apply (Hall n); [lia | auto].
      * intros _. ct_simpl. rewrite Hms. reflexivity.
Qed.

(** ** C7: [check_torsion] is idempotent *)

(** C7: a second call of [check_torsion(P)] on the finder left by a first
    call (served from the cache when [P] was found torsion, the multiples
    recomputed by [_compute_multiples]) returns exactly the first result:
    same [is_torsion], order and multiples (or the same exception). *)
Theorem check_torsion_idempotent (tf : TorsionFinder) (P : Point) :
  fst (check_torsion (snd (check_torsion tf P)) P) = fst (check_torsion tf P).
Proof.
  destruct tf as [c cache].
  destruct (is_on_curve c P) eqn:Hon.
  2: rewrite check_torsion_eq, Hon; ct_simpl; rewrite check_torsion_eq, Hon; reflexivity.
  destruct (cache_lookup P cache) eqn:L.
  { rewrite check_torsion_eq, Hon, L. ct_simpl. rewrite check_torsion_eq, Hon, L. reflexivity. }
  destruct (torsion_scan c P P 1 12 []) as [[o|] ms] eqn:S.
  - assert (E1 : check_torsion (mkFinder c cache) P =
                 (inr (mkResult true (Some o) ms), mkFinder c (dict_set P o cache)))
      by (rewrite check_torsion_eq, Hon, L, S; reflexivity).
    rewrite E1. ct_simpl. rewrite check_torsion_eq, Hon, cache_lookup_dict_set. ct_simpl.
    do 3 f_equal.
    change (torsion_scan c P (mult_naive c P 1) (Z.of_nat 1) 12 [] = (Some o, ms)) in S.
    apply torsion_scan_result in S. destruct S as (n & Ho & Hn & _ & _ & Hms).
    subst. unfold compute_multiples.
    replace (Z.to_nat (Z.of_nat n - 1)) with (n - 1)%nat by lia.
    change (multiples_loop c P P (n - 1)) with
      (multiples_loop c P (mult_naive c P 1) (n - 1)).
    rewrite multiples_loop_mult. reflexivity.
  - assert (E1 : check_torsion (mkFinder c cache) P =
                 (inr (mkResult false None ms), mkFinder c cache))
      by (rewrite check_torsion_eq, Hon, L, S; reflexivity).
    rewrite E1. ct_simpl. rewrite E1. reflexivity.
Qed.

(** ** Sets, folds and the sieve *)

Lemma fold_left_inv {A B} (I : A -> Prop) (f : A -> B -> A) (l : list B) (a : A) :
  I a -> (forall a b, In b l -> I a -> I (f a b)) -> I (fold_left f l a).
Proof.
  revert a. induction l as [|b l IH]; simpl; intros a Ha Hf; [exact Ha|].
  apply IH; [apply Hf; auto | intros; apply Hf; auto].
Qed.

Lemma pset_add_forall (R : Point -> Prop) P s :
  Forall R s -> R P -> Forall R (pset_add P s).
Proof.
  intros Hs HP. unfold pset_add. destruct (existsb _ _); auto.
  apply Forall_app. auto.
Qed.

Lemma pset_add_in X P s : In X s -> In X (pset_add P s).
Proof.
  intros H. unfold pset_add. destruct (existsb _ _); auto. apply in_or_app. auto.
Qed.

Lemma pset_add_nodup P s : NoDup s -> NoDup (pset_add P s).
Proof.
  intros H. unfold pset_add. destruct (existsb (point_eqb P) s) eqn:E; auto.
  apply (Permutation_NoDup (Permutation_cons_append s P)). constructor; auto.
  intros Hin. assert (existsb (point_eqb P) s = true) by
    (apply existsb_exists; exists P; split; auto; apply point_eqb_refl).
  congruence.
Qed.

Lemma zset_add_forall (R : Z -> Prop) x s : Forall R s -> R x -> Forall R (zset_add x s).
Proof.
  intros Hs Hx. unfold zset_add. destruct (existsb _ _); auto. apply Forall_app. auto.
Qed.

(** Every [y] kept by the sieve is [0] or has [y^2 | Delta]. *)
Lemma y_values_prop (Delta : Z) (l : list Z) :
  Forall (fun d => d = 0 \/ Delta mod (d * d) = 0)
    (fold_left
       (fun s d => if negb (d =? 0) && (Delta mod (d * d) =? 0) then zset_add d s else s)
       l [0]).
Proof.
  apply fold_left_inv; [constructor; auto|].
  intros s d _ Hs. destruct (negb (d =? 0) && (Delta mod (d * d) =? 0)) eqn:E; auto.
  apply zset_add_forall; auto. apply andb_true_iff in E as [_ E].
  apply Z.eqb_eq in E. auto.
Qed.

Lemma nagell_lutz_candidates_props (xwin : Z -> Z -> Z -> Z) (tf : TorsionFinder) :
  Forall (fun P => is_on_curve (tf_curve tf) P = true /\
            (P = Identity \/
             exists x y, P = Finite (Frac.of_int x) (Frac.of_int y) /\
               (y = 0 \/ Z.abs (Frac.to_int (discriminant (tf_curve tf))) mod (y * y) = 0) /\
               y * y = x * x * x + Frac.to_int (ca (tf_curve tf)) * x
                       + Frac.to_int (cb (tf_curve tf))))
    (nagell_lutz_candidates xwin tf) /\
  In Identity (nagell_lutz_candidates xwin tf) /\
  NoDup (nagell_lutz_candidates xwin tf).
Proof.
  unfold nagell_lutz_candidates. cbv zeta.
  set (c := tf_curve tf).
  set (A := Frac.to_int (ca c)). set (B := Frac.to_int (cb c)).
  set (D := Z.abs (Frac.to_int (discriminant c))).
  pose proof (y_values_prop D (integer_divisors D)) as HY.
  rewrite Forall_forall in HY.
  split; [|split].
  - apply fold_left_inv.
    + constructor; [split; [reflexivity | left; reflexivity] | constructor].
    + intros s y Hy Hs. apply fold_left_inv; [exact Hs|]. intros s' x _ Hs'.
      destruct (y * y =? x * x * x + A * x + B) eqn:E; [|exact Hs'].
      destruct (is_on_curve c (Finite (Frac.of_int x) (Frac.of_int y))) eqn:Hon;
        [|exact Hs'].
      apply pset_add_forall; [exact Hs'|]. split; [exact Hon|]. right. exists x, y.
      split; [reflexivity|]. split; [apply HY; exact Hy | apply Z.eqb_eq; exact E].
  - apply fold_left_inv with (I := In Identity); [left; reflexivity|].
    intros s y _ Hs. apply fold_left_inv; [exact Hs|]. intros s' x _ Hs'.
    destruct (_ =? _); [|exact Hs']. destruct (is_on_curve _ _); [|exact Hs'].
    apply pset_add_in; exact Hs'.
  - apply fold_left_inv with (I := @NoDup Point); [constructor; [intros []|constructor]|].
    intros s y _ Hs. apply fold_left_inv; [exact Hs|]. intros s' x _ Hs'.
    destruct (_ =? _); [|exact Hs']. destruct (is_on_curve _ _); [|exact Hs'].
    apply pset_add_nodup; exact Hs'.
Qed.

Lemma to_int_eq q z : q == inject_Z z -> Frac.to_int q = z.
Proof.
  unfold Qeq, Frac.to_int. simpl. intros H. rewrite Z.mul_1_r in H. rewrite H.
  apply Z.quot_mul. discriminate.
Qed.

Lemma discriminant_int c A B :
  ca c == inject_Z A -> cb c == inject_Z B ->
  discriminant c == inject_Z (-16 * (4 * (A * A * A) + 27 * (B * B))).
Proof.
  intros HA HB. unfold discriminant, Frac.mul, Frac.add, Frac.of_int, pow3, pow2.
  qred_out. rewrite HA, HB.
  rewrite !inject_Z_mult, inject_Z_plus, !inject_Z_mult. ring.
Qed.

(** ** [find_torsion_subgroup] *)

Lemma cache_lookup_dict_set_other X P v d :
  point_eqb X P = false -> cache_lookup X (dict_set P v d) = cache_lookup X d.
Proof.
  intros H. induction d as [|[k w] t IH]; cbn.
  - rewrite H. reflexivity.
  - destruct (point_eqb P k) eqn:E; cbn.
    + destruct (point_eqb X k) eqn:F; auto.
      exfalso. rewrite point_eqb_sym in E.
      pose proof (point_eqb_trans _ _ _ F E). congruence.
    + destruct (point_eqb X k); auto.
Qed.

Lemma check_torsion_identity tf :
  cache_inv tf -> fst (check_torsion tf Identity) = inr (mkResult true (Some 1) []).
Proof.
  destruct tf as [c cache]. unfold cache_inv. cbn [tf_curve tf_cache]. intros Hinv.
  rewrite check_torsion_eq. cbn [is_on_curve negb].
  destruct (cache_lookup Identity cache) as [o|] eqn:L; [|reflexivity].
  destruct (cache_lookup_in _ _ _ L) as (k & Hin & Hk).
  rewrite point_eqb_sym in Hk. apply point_eqb_identity in Hk. subst k.
  rewrite Forall_forall in Hinv. destruct (Hinv _ Hin) as (_ & Ho & _ & Hmin).
  assert (o = 1).
  { destruct (Z.eq_dec o 1) as [|Ne]; auto. exfalso. apply (Hmin 1%nat); [lia | reflexivity]. }
  subst. reflexivity.
Qed.

Lemma classify_all_inv tf cands pts ords :
  cache_inv tf -> cache_inv (snd (classify_all tf cands pts ords)) /\
                  tf_curve (snd (classify_all tf cands pts ords)) = tf_curve tf.
Proof.
  revert tf pts ords. induction cands as [|P rest IH]; intros tf pts ords H; cbn [classify_all].
  - auto.
  - pose proof (check_torsion_inv tf P H) as H1. pose proof (check_torsion_curve tf P) as H2.
    destruct (check_torsion tf P) as [[e|r] tf'] eqn:E; cbn [snd] in *; auto.
    destruct (is_torsion r), (order r) as [o|].
    1: destruct (IH tf' (pts ++ [P]) (dict_set P o ords) H1) as [I1 I2].
    all: try destruct (IH tf' pts ords H1) as [I1 I2].
    all: split; [exact I1 | rewrite I2; exact H2].
Qed.

Lemma classify_all_error tf cands pts ords e :
  fst (classify_all tf cands pts ords) = inl e -> e = NotOnCurve.
Proof.
  revert tf pts ords. induction cands as [|P rest IH]; intros tf pts ords; cbn [classify_all].
  - discriminate.
  - pose proof (check_torsion_error tf P) as H.
    destruct (check_torsion tf P) as [[e'|r] tf'] eqn:E; cbn [fst] in *.
    + intros F; inversion F; subst. apply H. reflexivity.
    + destruct (is_torsion r), (order r); apply IH.
Qed.

Lemma classify_all_ok tf cands pts ords :
  cache_inv tf -> Forall (fun P => is_on_curve (tf_curve tf) P = true) cands ->
  exists pts' ords', fst (classify_all tf cands pts ords) = inr (pts', ords') /\
    (forall X, In X pts -> In X pts') /\
    ((In Identity pts /\ cache_lookup Identity ords = Some 1) \/ In Identity cands ->
       In Identity pts' /\ cache_lookup Identity ords' = Some 1).
Proof.
  revert tf pts ords. induction cands as [|P rest IH]; intros tf pts ords Hinv Hon.
  - exists pts, ords. cbn. split; auto. split; auto. intros [H|[]]. exact H.
  - inversion Hon as [|? ? HP Hrest]; subst.
    destruct (check_torsion_on_curve tf P HP) as [r Hr].
    pose proof (check_torsion_inv tf P Hinv) as Hinv'.
    pose proof (check_torsion_curve tf P) as Hcur.
    assert (HidP : P = Identity -> r = mkResult true (Some 1) []).
    { intros ->. rewrite (check_torsion_identity tf Hinv) in Hr. congruence. }
    cbn [classify_all].
    destruct (check_torsion tf P) as [res tf'] eqn:E. cbn [fst snd] in *. subst res.
    rewrite <- Hcur in Hrest.
    destruct (is_torsion r) eqn:Ht, (order r) as [o|] eqn:Ho.
    + destruct (IH tf' (pts ++ [P]) (dict_set P o ords) Hinv' Hrest)
        as (pts' & ords' & Hres & Hsub & Hid).
      exists pts', ords'. split; [exact Hres|].
      split; [intros X HX; apply Hsub; apply in_or_app; left; exact HX|].
      intros Hcase. apply Hid.
      destruct (point_eqb Identity P) eqn:EP.
      * rewrite point_eqb_sym in EP. apply point_eqb_identity in EP. subst P.
        rewrite (HidP eq_refl) in Ho. cbn in Ho. inversion Ho; subst o.
        left. split; [apply in_or_app; right; left; reflexivity|].
        apply cache_lookup_dict_set.
      * destruct Hcase as [[H1 H2] | [H1|H1]].
        -- left. split; [apply in_or_app; left; exact H1|].
           rewrite cache_lookup_dict_set_other; auto.
        -- subst P. rewrite point_eqb_refl in EP. discriminate.
        -- right. exact H1.
    + destruct (IH tf' pts ords Hinv' Hrest) as (pts' & ords' & Hres & Hsub & Hid).
      exists pts', ords'. split; [exact Hres|]. split; [exact Hsub|].
      intros [H1|[H1|H1]]; apply Hid; auto.
      subst P. rewrite (HidP eq_refl) in Ho. discriminate.
    + destruct (IH tf' pts ords Hinv' Hrest) as (pts' & ords' & Hres & Hsub & Hid).
      exists pts', ords'. split; [exact Hres|]. split; [exact Hsub|].
      intros [H1|[H1|H1]]; apply Hid; auto.
      subst P. rewrite (HidP eq_refl) in Ht. discriminate.
    + destruct (IH tf' pts ords Hinv' Hrest) as (pts' & ords' & Hres & Hsub & Hid).
      exists pts', ords'. split; [exact Hres|]. split; [exact Hsub|].
      intros [H1|[H1|H1]]; apply Hid; auto.
      subst P. rewrite (HidP eq_refl) in Ht. discriminate.
Qed.

Lemma find_torsion_subgroup_inv xwin tf :
  cache_inv tf -> cache_inv (snd (find_torsion_subgroup xwin tf)).
Proof.
  intros H. unfold find_torsion_subgroup.
  destruct (classify_all_inv tf (nagell_lutz_candidates xwin tf) [] [] H) as [H1 _].
  destruct (classify_all tf (nagell_lutz_candidates xwin tf) [] []) as [[e|[pts ords]] tf'];
    cbn [snd] in *; auto.
  destruct (analyze_group_structure pts ords); auto.
Qed.

Lemma find_torsion_subgroup_error xwin tf e :
  fst (find_torsion_subgroup xwin tf) = inl e -> e = NotOnCurve \/ e = EmptyMax.
Proof.
  unfold find_torsion_subgroup.
  pose proof (classify_all_error tf (nagell_lutz_candidates xwin tf) [] []) as H.
  destruct (classify_all tf (nagell_lutz_candidates xwin tf) [] []) as [[e'|[pts ords]] tf'];
    cbn [fst] in *.
  - intros F; inversion F; subst. left. apply H. reflexivity.
  - destruct (analyze_group_structure pts ords) eqn:A; cbn [fst]; [|discriminate].
    intros F; inversion F; subst. right.
    unfold analyze_group_structure in A.
    destruct (_ =? 0)%nat; [discriminate|]. destruct (_ =? 1)%nat; [discriminate|].
    destruct (max_values _); [|congruence].
    destruct (_ =? _); [discriminate|]. destruct (_ && _); discriminate.
Qed.

(** ** C9: the order cache invariant *)

(** C9: every entry of the order cache maps a point [P] on the curve to an
    [n] with [1 <= n <= 12], [nP = O] and no smaller positive multiple of
    [P] equal to [O]: the fresh finder has it, [check_torsion],
    [find_torsion_subgroup] and [verify_torsion_theorem] preserve it, and a
    point classified as non-torsion leaves the cache unchanged (it is never
    inserted). *)
Theorem cache_invariant :
  (forall c tf, new_finder c = inr tf -> cache_inv tf) /\
  (forall tf P, cache_inv tf -> cache_inv (snd (check_torsion tf P))) /\
  (forall tf P r, fst (check_torsion tf P) = inr r -> is_torsion r = false ->
     tf_cache (snd (check_torsion tf P)) = tf_cache tf) /\
  (forall xwin tf, cache_inv tf -> cache_inv (snd (find_torsion_subgroup xwin tf))) /\
  (forall xwin tf, cache_inv tf -> cache_inv (snd (verify_torsion_theorem xwin tf))).
Proof.
  split; [|split; [|split; [|split]]].
  - intros c tf. unfold new_finder. destruct (is_integral_model c); [|discriminate].
    intros H; inversion H; subst. constructor.
  - apply check_torsion_inv.
  - intros tf P r H1 H2. rewrite (check_torsion_non_torsion tf P r H1 H2). reflexivity.
  - apply find_torsion_subgroup_inv.
  - intros xwin tf H. pose proof (find_torsion_subgroup_inv xwin tf H) as H1.
    unfold verify_torsion_theorem.
    destruct (find_torsion_subgroup xwin tf) as [[e|td] tf']; exact H1.
Qed.

(** ** C10: Identity is always found, the label "Trivial" never produced *)

(** C10: for every finder (its cache having the invariant of C9, e.g. a
    fresh finder of an integral curve), [find_torsion_subgroup] returns a
    result (no exception) whose [torsion_points] contain Identity, whose
    [orders] map Identity to 1, whose size is at least 1, and whose
    structure label is not ["Trivial"]. *)
Theorem find_torsion_subgroup_identity (xwin : Z -> Z -> Z -> Z) (tf : TorsionFinder) :
  cache_inv tf ->
  exists r tf', find_torsion_subgroup xwin tf = (inr r, tf') /\
    In Identity (torsion_points r) /\ cache_lookup Identity (orders r) = Some 1 /\
    1 <= size r /\ group_structure r <> "Trivial"%string.
Proof.
  intros Hinv. unfold find_torsion_subgroup.
  destruct (nagell_lutz_candidates_props xwin tf) as (Hall & HId & _).
  assert (Hon : Forall (fun P => is_on_curve (tf_curve tf) P = true)
                       (nagell_lutz_candidates xwin tf))
    by (eapply Forall_impl; [|exact Hall]; intros P [H _]; exact H).
  destruct (classify_all_ok tf _ [] [] Hinv Hon) as (pts & ords & Hres & _ & Hid).
  destruct (Hid (or_intror HId)) as [Hin Hlk].
  destruct (classify_all tf (nagell_lutz_candidates xwin tf) [] []) as [res tf'].
  cbn [fst] in Hres. subst res.
  assert (Hlen : (List.length pts <> 0)%nat) by (destruct pts; [destruct Hin | cbn; lia]).
  unfold analyze_group_structure.
  destruct (List.length pts =? 0)%nat eqn:L0; [apply Nat.eqb_eq in L0; contradiction|].
  destruct (List.length pts =? 1)%nat eqn:L1.
  - do 2 eexists. split; [reflexivity|]. cbn [torsion_points orders size group_structure].
    split; [exact Hin|]. split; [exact Hlk|]. split; [lia | discriminate].
  - destruct ords as [|[k v] t]; [discriminate Hlk|]. cbn [map max_values snd].
    destruct (Z.of_nat (List.length pts) =? fold_left Z.max (map snd t) v);
      [|destruct (_ && _)];
      (do 2 eexists; split; [reflexivity|]; cbn [torsion_points orders size group_structure];
       split; [exact Hin|]; split; [exact Hlk|]; split; [lia | discriminate]).
Qed.

(** ** C3: [verify_torsion_theorem] *)

(** C3: [verify_torsion_theorem] recomputes the subgroup; its [is_valid]
    (and [conforms_to_mazur]) flag is true exactly when the subgroup size is
    in [{1,...,10,12}] or in [{4,8,12,16}], and the result carries that size
    and the structure label of [find_torsion_subgroup]. *)
Theorem verify_torsion_theorem_spec (xwin : Z -> Z -> Z -> Z) (tf : TorsionFinder) :
  match find_torsion_subgroup xwin tf with
  | (inr td, tf') =>
      exists r, verify_torsion_theorem xwin tf = (inr r, tf') /\
        (is_valid r = true <->
           In (size td) [1; 2; 3; 4; 5; 6; 7; 8; 9; 10; 12] \/ In (size td) [4; 8; 12; 16]) /\
        conforms_to_mazur r = is_valid r /\ v_size r = size td /\
        structure r = group_structure td
  | (inl e, tf') => verify_torsion_theorem xwin tf = (inl e, tf')
  end.
Proof.
  unfold verify_torsion_theorem.
  destruct (find_torsion_subgroup xwin tf) as [[e|td] tf']; [reflexivity|].
  eexists. split; [reflexivity|]. cbn [is_valid conforms_to_mazur v_size structure].
  split; [|auto].
  rewrite orb_true_iff, existsb_exists. split.
  - intros [(x & Hx & Eq) | E1].
    + apply Z.eqb_eq in Eq. subst x. apply in_app_or in Hx. exact Hx.
    + apply Z.eqb_eq in E1. rewrite E1. left. left. reflexivity.
  - intros H. left. exists (size td). split; [apply in_or_app; exact H | apply Z.eqb_refl].
Qed.

(** ** C5: the Nagell-Lutz sieve *)

(** C5: for a curve with integer coefficients [a = A], [b = B], the sieve
    returns a finite duplicate-free list (the set) that contains Identity,
    and every other point in it is [(x, y)] with [x], [y] integers,
    [y^2 = x^3 + A x + B] (so on the curve) and [y = 0] or [y] a (positive
    or negative) divisor of [|Delta|] with [y^2 | |Delta|], where
    [Delta = -16(4A^3 + 27B^2)]; for any x-window. *)
Theorem nagell_lutz_sieve_sound (xwin : Z -> Z -> Z -> Z) (tf : TorsionFinder) (A B : Z) :
  ca (tf_curve tf) == inject_Z A -> cb (tf_curve tf) == inject_Z B ->
  In Identity (nagell_lutz_candidates xwin tf) /\
  NoDup (nagell_lutz_candidates xwin tf) /\
  forall P, In P (nagell_lutz_candidates xwin tf) ->
    P = Identity \/
    exists x y : Z, P = Finite (inject_Z x) (inject_Z y) /\
      is_on_curve (tf_curve tf) P = true /\
      y * y = x * x * x + A * x + B /\
      (y = 0 \/ ((y | Z.abs (-16 * (4 * (A * A * A) + 27 * (B * B)))) /\
                 (y * y | Z.abs (-16 * (4 * (A * A * A) + 27 * (B * B)))))).
Proof.
  intros HA HB.
  destruct (nagell_lutz_candidates_props xwin tf) as (Hall & HId & Hnd).
  split; [exact HId|]. split; [exact Hnd|].
  intros P HP. rewrite Forall_forall in Hall. destruct (Hall P HP) as [Hon [H|H]]; [left; exact H|].
  right. destruct H as (x & y & -> & Hy & Heq).
  rewrite (to_int_eq _ _ HA), (to_int_eq _ _ HB) in Heq.
  rewrite (to_int_eq _ _ (discriminant_int _ _ _ HA HB)) in Hy.
  exists x, y. split; [reflexivity|]. split; [exact Hon|]. split; [exact Heq|].
  destruct Hy as [Hy|Hy]; [left; exact Hy|].
  destruct (Z.eq_dec y 0) as [Y0|Y0]; [left; exact Y0|]. right.
  assert (Hd : (y * y | Z.abs (-16 * (4 * (A * A * A) + 27 * (B * B))))).
  { apply Z.mod_divide; [|exact Hy]. intro F. apply Z.eq_mul_0 in F. tauto. }
  split; [|exact Hd].
  apply Z.divide_trans with (y * y); [exists y; ring | exact Hd].
Qed.

(** ** C1: the integrality precondition *)

Lemma integral_coeff_iff (q : Q) : Pos.eqb (Qden (Qred q)) 1 = true <-> exists z, q == inject_Z z.
Proof.
  split.
  - intros H. apply Pos.eqb_eq in H. exists (Qnum (Qred q)).
    rewrite <- (Qred_correct q) at 1. destruct (Qred q) as [n d]. cbn in *. subst d.
    reflexivity.
  - intros [z Hz]. rewrite (Qred_complete _ _ Hz), Qred_of_int. reflexivity.
Qed.

Lemma is_integral_model_iff (a b : Q) :
  is_integral_model (mkCurve a b) = true <->
  exists A B : Z, a == inject_Z A /\ b == inject_Z B.
Proof.
  unfold is_integral_model. cbn [ca cb]. rewrite andb_true_iff, !integral_coeff_iff.
  split.
  - intros [[A HA] [B HB]]. exists A, B. auto.
  - intros (A & B & HA & HB). split; [exists A | exists B]; auto.
Qed.

(** C1: for a curve [make_curve(a, b)], constructing the finder (and
    hence [TorsionFinder(curve).find_torsion_subgroup()]) fails with
    NonIntegralModel exactly when [a] and [b] are not both integers; for
    integer coefficients the finder is built and the subgroup search never
    raises NonIntegralModel. *)
Theorem finder_integrality (xwin : Z -> Z -> Z -> Z) (a b : Q) (c : Curve) :
  make_curve a b = inr c ->
  ((new_finder c = inl NonIntegralModel /\
    torsion_subgroup_of xwin c = inl NonIntegralModel) <->
   ~ (exists A B : Z, a == inject_Z A /\ b == inject_Z B)) /\
  ((exists A B : Z, a == inject_Z A /\ b == inject_Z B) ->
   (exists tf, new_finder c = inr tf) /\ torsion_subgroup_of xwin c <> inl NonIntegralModel).
Proof.
  unfold make_curve. destruct (Frac.eqb _ 0); [discriminate|].
  intros H. inversion H; subst c. clear H.
  rewrite <- is_integral_model_iff.
  unfold torsion_subgroup_of, new_finder.
  destruct (is_integral_model (mkCurve a b)) eqn:I.
  - split.
    + split; [intros [H _]; discriminate | intros H; exfalso; apply H; reflexivity].
    + intros _. split; [eexists; reflexivity|].
      intros F. apply find_torsion_subgroup_error in F. destruct F; discriminate.
  - split.
    + split; [intros _; discriminate | intros _; split; reflexivity].
    + discriminate.
Qed.

(** ** C8: [modular_inverse] *)

(** Bezout and gcd for [egcd_fuel] on non-negative arguments, given more
    fuel than [a]. *)
Lemma egcd_fuel_correct (f : nat) (a b : Z) :
  0 <= a -> 0 <= b -> (Z.to_nat a < f)%nat ->
  let '(g, x, y) := ModularArithmetic.egcd_fuel f a b in
  g = Z.gcd a b /\ a * x + b * y = g.
Proof.
  revert a b. induction f as [|f IH]; intros a b Ha Hb Hf; [lia|].
  cbn [ModularArithmetic.egcd_fuel].
  destruct (Z.eqb_spec a 0) as [A0|A0].
  - subst a. rewrite Z.gcd_0_l, Z.abs_eq by exact Hb. split; ring.
  - assert (Hm : 0 <= b mod a < a) by (apply Z.mod_pos_bound; lia).
    specialize (IH (b mod a) a (proj1 Hm) Ha ltac:(lia)).
    destruct (ModularArithmetic.egcd_fuel f (b mod a) a) as [[g x1] y1].
    destruct IH as [Hg He]. split.
    + rewrite Hg. apply Z.gcd_mod. exact A0.
    + pose proof (Z.div_mod b a A0) as Hd. rewrite <- He.
      set (q := b / a) in *. set (r := b mod a) in *. rewrite Hd. ring.
Qed.

Lemma extended_gcd_correct (a b : Z) :
  0 <= a -> 0 <= b ->
  let '(g, x, y) := ModularArithmetic.extended_gcd a b in
  g = Z.gcd a b /\ a * x + b * y = g.
Proof.
  intros Ha Hb. unfold ModularArithmetic.extended_gcd.
  apply egcd_fuel_correct; [exact Ha | exact Hb | lia].
Qed.

(** C8 (counterexample): for [m = 1] the gcd is 1 and [modular_inverse]
    returns 0, but [(2 * 0) mod 1 = 0], not 1 (no residue mod 1 can be 1). *)
Lemma modular_inverse_mod_one :
  ModularArithmetic.modular_inverse 2 1 = inr 0 /\ (2 * 0) mod 1 <> 1.
Proof. split; [vm_compute; reflexivity | discriminate]. Qed.

(** C8 (amended): for [a >= 0] and a modulus [m >= 2], [modular_inverse a m]
    fails with NoModularInverse exactly when [gcd(a, m) <> 1], it fails
    with no other error, and when it returns [x], [x] is in [[0, m)] and
    [(a * x) mod m = 1]. *)
Theorem modular_inverse_spec (a m : Z) :
  0 <= a -> 2 <= m ->
  (ModularArithmetic.modular_inverse a m = inl NoModularInverse <-> Z.gcd a m <> 1) /\
  (forall e, ModularArithmetic.modular_inverse a m = inl e -> e = NoModularInverse) /\
  (forall x, ModularArithmetic.modular_inverse a m = inr x -> 0 <= x < m /\ (a * x) mod m = 1).
Proof.
  intros Ha Hm. pose proof (extended_gcd_correct a m Ha ltac:(lia)) as Hc.
  unfold ModularArithmetic.modular_inverse.
  destruct (ModularArithmetic.extended_gcd a m) as [[g x] y].
  destruct Hc as [Hg He]. subst g.
  destruct (Z.eqb_spec (Z.gcd a m) 1) as [G1|G1]; cbn [negb].
  - destruct (Z.eqb_spec m 0) as [M0|M0]; [lia|].
    split; [split; [discriminate | intros F; contradiction] |].
    split; [intros e F; discriminate|].
    intros r Hr. injection Hr as <-.
    split; [apply Z.mod_pos_bound; lia|].
    replace (x mod m + m) with (x mod m + 1 * m) by ring.
    rewrite Z.mod_add, Z.mod_mod, Z.mul_mod_idemp_r by exact M0.
    replace (a * x) with (1 + (- y) * m) by lia.
    rewrite Z.mod_add by exact M0. apply Z.mod_small. lia.
  - split; [split; [intros _; exact G1 | intros _; reflexivity]|].
    split; [intros e F; injection F as <-; reflexivity | intros r F; discriminate].
Qed.

(** Outside the amended range: for a negative [a] the recursion of
    [extended_gcd] returns a gcd of sign [-1], so [modular_inverse (-1) 5]
    raises although [gcd(-1, 5) = 1] and [4] is an inverse. *)
Example modular_inverse_negative :
  ModularArithmetic.modular_inverse (-1) 5 = inl NoModularInverse /\
  Z.gcd (-1) 5 = 1 /\ (-1 * 4) mod 5 = 1.
Proof. vm_compute. repeat split; reflexivity. Qed.

(** ** C4: double-and-add against repeated addition *)

(** The chord-and-tangent law on points of the curve, up to Fraction
    equality: the three outcomes of [add], closure, and associativity on a
    non-singular curve. The associativity proof splits on the outcome of each
    of the four additions and closes every case by the Nullstellensatz
    ([nsatz]), each disequality [p <> q] being turned into an inverse
    [(p - q) * i = 1]; numerals are written as sums of ones, which [nsatz]
    reads as ring constants. *)
Section GroupLaw.
Local Open Scope Q_scope.

Ltac qconst :=
  try change (2#1) with (1+1) in *; try change (3#1) with (1+1+1) in *;
  try change (4#1) with ((1+1)*(1+1)) in *; try change (27#1) with ((1+1+1)*(1+1+1)*(1+1+1)) in *.
Ltac qnsatz := solve [qconst; nsatz; try (let H := fresh in intro H; vm_compute in H; discriminate H)].

Lemma is_on_curve_finite c x y :
  is_on_curve c (Finite x y) = true <-> y*y == x*x*x + ca c * x + cb c.
Proof.
  unfold is_on_curve, pow2, pow3, Frac.add, Frac.mul. rewrite eqb_true.
  rewrite !Qred_correct. reflexivity.
Qed.

Lemma on_curve_same_x c x1 y1 x2 y2 :
  y1*y1 == x1*x1*x1 + ca c * x1 + cb c -> y2*y2 == x2*x2*x2 + ca c * x2 + cb c ->
  x1 == x2 -> y1 == y2 \/ y1 == - y2.
Proof.
  intros H1 H2 E.
  assert (H : (y1 - y2) * (y1 + y2) == 0) by qnsatz.
  apply Qmult_integral in H as [H|H]; [left | right]; lra.
Qed.

Lemma add_spec c x1 y1 x2 y2 :
  is_on_curve c (Finite x1 y1) = true -> is_on_curve c (Finite x2 y2) = true ->
  (x1 == x2 /\ y1 == - y2 /\ add c (Finite x1 y1) (Finite x2 y2) = Identity) \/
  (exists l x3 y3, add c (Finite x1 y1) (Finite x2 y2) = Finite x3 y3 /\
     x3 == l*l - x1 - x2 /\ y3 == l*(x1 - x3) - y1 /\
     ((x1 == x2 /\ y1 == y2 /\ ~ y1 == 0 /\ l * (2*y1) == 3*(x1*x1) + ca c) \/
      (~ x1 == x2 /\ l * (x2 - x1) == y2 - y1))).
Proof.
  intros H1 H2. apply is_on_curve_finite in H1, H2.
  unfold add.
  destruct (Frac.eqb x1 x2) eqn:E1; destruct (Frac.eqb y1 (Frac.neg y2)) eqn:E2; cbn [andb].
  - left. apply eqb_true in E1, E2. unfold Frac.neg in E2. rewrite Qred_correct in E2. auto.
  - apply eqb_true in E1. apply eqb_false in E2. unfold Frac.neg in E2. rewrite Qred_correct in E2.
    assert (Hy : y1 == y2) by (destruct (on_curve_same_x c x1 y1 x2 y2 H1 H2 E1); tauto).
    cbn [point_eqb]. rewrite (proj2 (eqb_true x1 x2) E1), (proj2 (eqb_true y1 y2) Hy). cbn [andb].
    destruct (Frac.eqb y1 0) eqn:E3.
    + apply eqb_true in E3. exfalso. apply E2. rewrite <- Hy, E3. reflexivity.
    + apply eqb_false in E3. right.
      exists (Frac.div (Frac.add (Frac.mul (Frac.of_int 3) (pow2 x1)) (ca c)) (Frac.mul (Frac.of_int 2) y1)).
      do 2 eexists. split; [reflexivity|].
      unfold pow2, Frac.sub, Frac.mul, Frac.div, Frac.add, Frac.of_int. rewrite !Qred_correct.
      split; [reflexivity|]. split; [reflexivity|]. left.
      split; [exact E1|]. split; [exact Hy|]. split; [exact E3|].
      field. intro F. apply E3. lra.
  - apply eqb_false in E1. cbn [point_eqb]. rewrite (proj2 (eqb_false x1 x2) E1). cbn [andb].
    rewrite eqb_sym, (proj2 (eqb_false x1 x2) E1).
    right. exists (Frac.div (Frac.sub y2 y1) (Frac.sub x2 x1)).
    do 2 eexists. split; [reflexivity|].
    unfold pow2, Frac.sub, Frac.mul, Frac.div. rewrite !Qred_correct.
    split; [reflexivity|]. split; [reflexivity|]. right.
    split; [exact E1|]. field. intro F. apply E1. lra.
  - apply eqb_false in E1. cbn [point_eqb]. rewrite (proj2 (eqb_false x1 x2) E1). cbn [andb].
    rewrite eqb_sym, (proj2 (eqb_false x1 x2) E1).
    right. exists (Frac.div (Frac.sub y2 y1) (Frac.sub x2 x1)).
    do 2 eexists. split; [reflexivity|].
    unfold pow2, Frac.sub, Frac.mul, Frac.div. rewrite !Qred_correct.
    split; [reflexivity|]. split; [reflexivity|]. right.
    split; [exact E1|]. field. intro F. apply E1. lra.
Qed.

Ltac inv_hyps :=
  repeat match goal with
  | H : ~ ?p == ?q |- _ =>
      let i := fresh "i" in let Hi := fresh "Hi" in
      assert (Hi : (p - q) * / (p - q) == 1) by (apply Qmult_inv_r; intro F; apply H; lra);
      set (i := / (p - q)) in Hi; clearbody i; clear H
  end.

Lemma add_identity_r c P : add c P Identity = P.
Proof. destruct P; reflexivity. Qed.

Lemma add_on_curve c P Q :
  is_on_curve c P = true -> is_on_curve c Q = true -> is_on_curve c (add c P Q) = true.
Proof.
  destruct P as [|x1 y1]; [intros _ H; exact H|].
  destruct Q as [|x2 y2]; [intros H _; exact H|].
  intros HP HQ.
  destruct (add_spec c x1 y1 x2 y2 HP HQ) as [(_ & _ & ->) | (l & x3 & y3 & -> & Hx & Hy & [Ht | Hc])];
    [reflexivity| |]; apply is_on_curve_finite in HP, HQ; apply is_on_curve_finite.
  - destruct Ht as (E1 & E2 & N & L). inv_hyps. qnsatz.
  - destruct Hc as (N & L). inv_hyps. qnsatz.
Qed.

Lemma add_identity_l c P : add c Identity P = P.
Proof. reflexivity. Qed.

Lemma Q_one_not_zero : ~ 1 == 0.
Proof. intro H. vm_compute in H. discriminate H. Qed.

Ltac expand_add :=
  repeat match goal with
  | |- context [add ?c Identity ?P] => rewrite (add_identity_l c P)
  | |- context [add ?c ?P Identity] => rewrite (add_identity_r c P)
  | H1 : is_on_curve ?c (Finite ?x1 ?y1) = true, H2 : is_on_curve ?c (Finite ?x2 ?y2) = true
    |- context [add ?c (Finite ?x1 ?y1) (Finite ?x2 ?y2)] =>
      let S := fresh "S" in let Hn := fresh "Hon" in
      pose proof (add_on_curve c _ _ H1 H2) as Hn;
      destruct (add_spec c x1 y1 x2 y2 H1 H2)
        as [(? & ? & S) | (? & ? & ? & S & ? & ? & [(? & ? & ? & ?) | (? & ?)])];
      rewrite S in Hn |- *
  end.

Ltac leaf_with_disc :=
  repeat match goal with H : is_on_curve _ _ = true |- _ => clear H end;
  repeat match goal with H : add _ _ _ = _ |- _ => clear H end;
  cbn [point_eqb];
  lazymatch goal with
  | |- true = true => reflexivity
  | |- false = true => exfalso; apply Q_one_not_zero; inv_hyps; qnsatz
  | |- _ => apply andb_true_iff; split; apply eqb_true; inv_hyps; qnsatz
  end.

Ltac leaf :=
  first [ match goal with Hd : ~ 4 * _ + 27 * _ == 0 |- _ => clear Hd end; leaf_with_disc | leaf_with_disc ].

Lemma add_assoc_on_curve c A B C :
  ~ 4 * (ca c * ca c * ca c) + 27 * (cb c * cb c) == 0 ->
  is_on_curve c A = true -> is_on_curve c B = true -> is_on_curve c C = true ->
  point_eqb (add c (add c A B) C) (add c A (add c B C)) = true.
Proof.
  intros Hd HA HB HC.
  destruct A as [|x1 y1]; [apply point_eqb_refl|].
  destruct B as [|x2 y2]; [rewrite add_identity_r; apply point_eqb_refl|].
  destruct C as [|x3 y3]; [rewrite !add_identity_r; apply point_eqb_refl|].
  pose proof (proj1 (is_on_curve_finite _ _ _) HA) as EA.
  pose proof (proj1 (is_on_curve_finite _ _ _) HB) as EB.
  pose proof (proj1 (is_on_curve_finite _ _ _) HC) as EC.
  expand_add.
  all: leaf.
Qed.

End GroupLaw.

Lemma negate_on_curve c P : is_on_curve c P = true -> is_on_curve c (negate P) = true.
Proof.
  destruct P as [|x y]; [auto|]. cbn [negate]. rewrite !is_on_curve_finite.
  unfold Frac.neg. rewrite Qred_correct. intros H. rewrite <- H. ring.
Qed.

Lemma discriminant_nonzero a b c : make_curve a b = inr c ->
  ~ (4 * (ca c * ca c * ca c) + 27 * (cb c * cb c) == 0)%Q.
Proof.
  unfold make_curve. destruct (Frac.eqb (discriminant (mkCurve a b)) 0) eqn:E; [discriminate|].
  intros H. injection H as <-. apply eqb_false in E. intros F. apply E.
  unfold discriminant, pow2, pow3, Frac.mul, Frac.add, Frac.of_int. cbn [ca cb].
  rewrite !Qred_correct. cbn [ca cb] in F. rewrite F. reflexivity.
Qed.

Section Multiples.
Variables (c : Curve) (P : Point).
Hypothesis Hdisc : ~ (4 * (ca c * ca c * ca c) + 27 * (cb c * cb c) == 0)%Q.
Hypothesis HP : is_on_curve c P = true.

Lemma mult_naive_on_curve n : is_on_curve c (mult_naive c P n) = true.
Proof. induction n as [|n IH]; [reflexivity|]. apply add_on_curve; [exact IH | exact HP]. Qed.

Lemma mult_naive_add i j :
  point_eqb (add c (mult_naive c P i) (mult_naive c P j)) (mult_naive c P (i + j)) = true.
Proof.
  induction j as [|j IH].
  - rewrite add_identity_r, Nat.add_0_r. apply point_eqb_refl.
  - rewrite Nat.add_succ_r. cbn [mult_naive].
    apply point_eqb_trans with (add c (add c (mult_naive c P i) (mult_naive c P j)) P).
    + rewrite point_eqb_sym.
      apply add_assoc_on_curve; [exact Hdisc | apply mult_naive_on_curve | apply mult_naive_on_curve | exact HP].
    + apply add_compat; [exact IH | apply point_eqb_refl].
Qed.

Lemma scalar_loop_mult p : forall R A r a,
  point_eqb R (mult_naive c P r) = true -> point_eqb A (mult_naive c P a) = true ->
  point_eqb (scalar_loop c R A p) (mult_naive c P (r + a * Pos.to_nat p)) = true.
Proof.
  induction p as [p IH | p IH |]; intros R A r a HR HA; cbn [scalar_loop].
  - replace (r + a * Pos.to_nat p~1)%nat with ((r + a) + (a + a) * Pos.to_nat p)%nat
      by (rewrite Pos2Nat.inj_xI; lia).
    apply IH.
    + apply point_eqb_trans with (add c (mult_naive c P r) (mult_naive c P a));
        [apply add_compat; assumption | apply mult_naive_add].
    + unfold double. apply point_eqb_trans with (add c (mult_naive c P a) (mult_naive c P a));
        [apply add_compat; assumption | apply mult_naive_add].
  - replace (r + a * Pos.to_nat p~0)%nat with (r + (a + a) * Pos.to_nat p)%nat
      by (rewrite Pos2Nat.inj_xO; lia).
    apply IH; [exact HR|].
    unfold double. apply point_eqb_trans with (add c (mult_naive c P a) (mult_naive c P a));
      [apply add_compat; assumption | apply mult_naive_add].
  - rewrite Pos2Nat.inj_1, Nat.mul_1_r.
    apply point_eqb_trans with (add c (mult_naive c P r) (mult_naive c P a));
      [apply add_compat; assumption | apply mult_naive_add].
Qed.

Lemma scalar_loop_naive p :
  point_eqb (scalar_loop c Identity P p) (mult_naive c P (Pos.to_nat p)) = true.
Proof.
  pose proof (scalar_loop_mult p Identity P 0 1 eq_refl) as H.
  rewrite Nat.add_0_l, Nat.mul_1_l in H. apply H.
  apply point_eqb_refl.
Qed.

End Multiples.

(** C4: on a curve built by [make_curve] (non-zero discriminant), for a point
    [P] on the curve, [scalar_multiply(P, 0)] is Identity,
    [scalar_multiply(P, 1)] is [P], for [n >= 0] the double-and-add result
    equals (as Points, [Point.__eq__]) the [n]-fold repeated addition
    [((P + P) + ...) + P], and for [n < 0] it equals the [|n|]-fold repeated
    addition of [negate P] ([y] reflected; Identity negates to itself). *)
Theorem scalar_multiply_naive (a b : Q) (c : Curve) (P : Point) :
  make_curve a b = inr c -> is_on_curve c P = true ->
  scalar_multiply c P 0 = Identity /\ scalar_multiply c P 1 = P /\
  (forall n, 0 <= n ->
     point_eqb (scalar_multiply c P n) (mult_naive c P (Z.to_nat n)) = true) /\
  (forall n, n < 0 ->
     point_eqb (scalar_multiply c P n) (mult_naive c (negate P) (Z.to_nat (- n))) = true).
Proof.
  intros Hc HP. pose proof (discriminant_nonzero a b c Hc) as Hd.
  split; [reflexivity|]. split; [reflexivity|]. split.
  - intros [|p|p] Hn; [reflexivity | | lia].
    cbn [scalar_multiply]. rewrite Z2Nat.inj_pos. apply scalar_loop_naive; assumption.
  - intros [|p|p] Hn; [lia | lia |].
    cbn [scalar_multiply]. change (- Z.neg p) with (Z.pos p). rewrite Z2Nat.inj_pos.
    apply scalar_loop_naive; [exact Hd | apply negate_on_curve; exact HP].
Qed.

(** * Instances at concrete inputs *)

(** C1 at [a = 1/2], [b = 0] (Scenario E). *)
Lemma finder_integrality_witness :
  make_curve (1 # 2) 0 = inr (mkCurve (1 # 2) 0) /\
  new_finder (mkCurve (1 # 2) 0) = inl NonIntegralModel /\
  torsion_subgroup_of xwin_exact (mkCurve (1 # 2) 0) = inl NonIntegralModel.
Proof.
  assert (Hm : make_curve (1 # 2) 0 = inr (mkCurve (1 # 2) 0)) by (vm_compute; reflexivity).
  split; [exact Hm|].
  apply (proj2 (proj1 (finder_integrality xwin_exact (1 # 2) 0 (mkCurve (1 # 2) 0) Hm))).
  intros (A & B & HA & _). unfold Qeq in HA. cbn in HA. lia.
Defined.

(** C2 at the point [(0, 0)] of order 2 on [y^2 = x^3 - x]. *)
Lemma check_torsion_spec_witness :
  cache_inv finder_m1_0 /\ is_on_curve (tf_curve finder_m1_0) (Finite 0 0) = true /\
  fst (check_torsion finder_m1_0 (Finite 0 0)) =
    inr (mkResult true (Some (Z.of_nat 2))
           (map (mult_naive (tf_curve finder_m1_0) (Finite 0 0)) (seq 1 (2 - 1)))).
Proof.
  assert (Hi : cache_inv finder_m1_0) by constructor.
  assert (Ho : is_on_curve (tf_curve finder_m1_0) (Finite 0 0) = true) by (vm_compute; reflexivity).
  split; [exact Hi|]. split; [exact Ho|].
  apply (proj1 (proj1 (check_torsion_spec finder_m1_0 (Finite 0 0) Hi) Ho) 2%nat).
  - lia.
  - vm_compute. reflexivity.
  - intros m Hm. assert (m = 1%nat) by lia. subst m. vm_compute. discriminate.
Defined.

(** C5 on [y^2 = x^3 - x]. *)
Lemma nagell_lutz_sieve_sound_witness :
  ca (tf_curve finder_m1_0) == inject_Z (-1) /\ cb (tf_curve finder_m1_0) == inject_Z 0 /\
  In Identity (nagell_lutz_candidates xwin_exact finder_m1_0) /\
  NoDup (nagell_lutz_candidates xwin_exact finder_m1_0).
Proof.
  assert (HA : ca (tf_curve finder_m1_0) == inject_Z (-1)) by reflexivity.
  assert (HB : cb (tf_curve finder_m1_0) == inject_Z 0) by reflexivity.
  split; [exact HA|]. split; [exact HB|].
  destruct (nagell_lutz_sieve_sound xwin_exact finder_m1_0 (-1) 0 HA HB) as (H1 & H2 & _).
  split; [exact H1 | exact H2].
Defined.

(** C8 at [a = 3], [m = 7]: the inverse 5. *)
Lemma modular_inverse_spec_witness :
  0 <= 3 /\ 2 <= 7 /\ ModularArithmetic.modular_inverse 3 7 = inr 5 /\
  0 <= 5 < 7 /\ (3 * 5) mod 7 = 1.
Proof.
  assert (H1 : 0 <= 3) by lia. assert (H2 : 2 <= 7) by lia.
  assert (H3 : ModularArithmetic.modular_inverse 3 7 = inr 5) by (vm_compute; reflexivity).
  split; [exact H1|]. split; [exact H2|]. split; [exact H3|].
  exact (proj2 (proj2 (modular_inverse_spec 3 7 H1 H2)) 5 H3).
Defined.

(** C9: the invariant after classifying [(0, 0)] with a fresh finder. *)
Lemma cache_invariant_witness :
  cache_inv finder_m1_0 /\ cache_inv (snd (check_torsion finder_m1_0 (Finite 0 0))).
Proof.
  assert (Hi : cache_inv finder_m1_0) by constructor.
  split; [exact Hi|]. exact (proj1 (proj2 cache_invariant) finder_m1_0 (Finite 0 0) Hi).
Defined.

(** C10 on [y^2 = x^3 - x] with a fresh finder. *)
Lemma find_torsion_subgroup_identity_witness :
  cache_inv finder_m1_0 /\
  exists r tf', find_torsion_subgroup xwin_exact finder_m1_0 = (inr r, tf') /\
    In Identity (torsion_points r) /\ cache_lookup Identity (orders r) = Some 1 /\
    1 <= size r /\ group_structure r <> "Trivial"%string.
Proof.
  assert (Hi : cache_inv finder_m1_0) by constructor.
  split; [exact Hi|]. exact (find_torsion_subgroup_identity xwin_exact finder_m1_0 Hi).
Defined.

(** C4 on [y^2 = x^3 - 2] at the point [(3, 5)] of infinite order, [n = 5]. *)
Lemma scalar_multiply_naive_witness :
  make_curve 0 (-2) = inr (mkCurve 0 (-2)) /\
  is_on_curve (mkCurve 0 (-2)) (Finite 3 5) = true /\
  point_eqb (scalar_multiply (mkCurve 0 (-2)) (Finite 3 5) 5)
            (mult_naive (mkCurve 0 (-2)) (Finite 3 5) 5) = true.
Proof.
  assert (Hm : make_curve 0 (-2) = inr (mkCurve 0 (-2))) by (vm_compute; reflexivity).
  assert (Ho : is_on_curve (mkCurve 0 (-2)) (Finite 3 5) = true) by (vm_compute; reflexivity).
  split; [exact Hm|]. split; [exact Ho|].
  assert (H5 : 0 <= 5) by lia.
  exact (proj1 (proj2 (proj2 (scalar_multiply_naive 0 (-2) _ _ Hm Ho))) 5 H5).
Defined.

(** * Further properties of the code *)

(** ** [ModularArithmetic] on all integers *)

(** [extended_gcd] on any [a], [b]: Bezout, [|g| = gcd(a, b)], and the sign
    of [g] is the sign of [a] (Python's [%] takes the divisor's sign), with
    [g = b] for [a = 0]. *)
Lemma egcd_fuel_general (f : nat) (a b : Z) :
  (Z.to_nat (Z.abs a) < f)%nat ->
  let '(g, x, y) := ModularArithmetic.egcd_fuel f a b in
  a * x + b * y = g /\ Z.abs g = Z.gcd a b /\
  (a = 0 -> g = b) /\ (0 < a -> 0 <= g) /\ (a < 0 -> g <= 0).
Proof.
  revert a b. induction f as [|f IH]; intros a b Hf; [lia|].
  cbn [ModularArithmetic.egcd_fuel].
  destruct (Z.eqb_spec a 0) as [A0|A0].
  - subst a. cbv beta iota. split; [ring|]. split; [reflexivity|]. lia.
  - assert (Hm : (0 < a -> 0 <= b mod a < a) /\ (a < 0 -> a < b mod a <= 0)).
    { split; intros; [apply Z.mod_pos_bound | apply Z.mod_neg_bound]; lia. }
    specialize (IH (b mod a) a ltac:(lia)).
    destruct (ModularArithmetic.egcd_fuel f (b mod a) a) as [[g x1] y1].
    destruct IH as (He & Hg & H0 & Hp & Hn). split; [|split; [|split; [lia|]]].
    + pose proof (Z.div_mod b a A0) as Hd. rewrite <- He.
      set (q := b / a) in *. set (r := b mod a) in *. rewrite Hd. ring.
    + rewrite Hg. apply Z.gcd_mod. exact A0.
    + destruct (Z.eq_dec (b mod a) 0) as [R0|R0]; [specialize (H0 R0); lia|].
      split; intros; lia.
Qed.

Lemma extended_gcd_general (a b : Z) :
  let '(g, x, y) := ModularArithmetic.extended_gcd a b in
  a * x + b * y = g /\ Z.abs g = Z.gcd a b /\
  (a = 0 -> g = b) /\ (0 < a -> 0 <= g) /\ (a < 0 -> g <= 0).
Proof. apply egcd_fuel_general. lia. Qed.

Lemma extended_gcd_gcd (a b : Z) :
  let '(g, _, _) := ModularArithmetic.extended_gcd a b in
  (0 < a -> g = Z.gcd a b) /\ (a < 0 -> g = - Z.gcd a b).
Proof.
  pose proof (extended_gcd_general a b) as H.
  destruct (ModularArithmetic.extended_gcd a b) as [[g x] y].
  destruct H as (_ & Hg & _ & Hp & Hn). split; intros; lia.
Qed.

Lemma modular_inverse_m_nonzero (a m x : Z) :
  ModularArithmetic.modular_inverse a m = inr x -> m <> 0.
Proof.
  unfold ModularArithmetic.modular_inverse.
  destruct (ModularArithmetic.extended_gcd a m) as [[g x0] y0].
  destruct (negb (g =? 1)); [discriminate|].
  destruct (Z.eqb_spec m 0); [discriminate | auto].
Qed.

Lemma modular_inverse_inr (a m x : Z) :
  ModularArithmetic.modular_inverse a m = inr x ->
  (a * x) mod m = 1 mod m /\ (0 < m -> 0 <= x < m) /\ (m < 0 -> m < x <= 0).
Proof.
  pose proof (extended_gcd_general a m) as Hc.
  unfold ModularArithmetic.modular_inverse.
  destruct (ModularArithmetic.extended_gcd a m) as [[g x0] y0].
  destruct Hc as (He & _).
  destruct (Z.eqb_spec g 1) as [G1|G1]; cbn [negb]; [|discriminate].
  destruct (Z.eqb_spec m 0) as [M0|M0]; [discriminate|].
  intros Hr. injection Hr as <-. subst g.
  split; [|split; intros; [apply Z.mod_pos_bound | apply Z.mod_neg_bound]; lia].
  replace (x0 mod m + m) with (x0 mod m + 1 * m) by ring.
  rewrite Z.mod_add, Z.mod_mod, Z.mul_mod_idemp_r by exact M0.
  replace (a * x0) with (1 + (- y0) * m) by lia.
  rewrite Z.mod_add by exact M0. reflexivity.
Qed.

(** X1: [extended_gcd(a, b)] returns [(g, x, y)] with [a x + b y = g] for
    all integers; [g = gcd(a, b)] when [a > 0], [g = -gcd(a, b)] when
    [a < 0], and [g = b] when [a = 0]. *)
Theorem extended_gcd_bezout (a b : Z) :
  let '(g, x, y) := ModularArithmetic.extended_gcd a b in
  a * x + b * y = g /\
  (0 < a -> g = Z.gcd a b) /\ (a < 0 -> g = - Z.gcd a b) /\ (a = 0 -> g = b).
Proof.
  pose proof (extended_gcd_general a b) as H.
  destruct (ModularArithmetic.extended_gcd a b) as [[g x] y].
  destruct H as (He & Hg & H0 & Hp & Hn).
  split; [exact He|]. split; [|split; [|exact H0]]; intros; lia.
Qed.

(** X2: [modular_inverse(a, m)] raises NoModularInverse whenever
    [gcd(a, m) <> 1] and for every negative [a]; it always raises for
    [m = 0]; for [a > 0], [m <> 0] and [gcd(a, m) = 1] it returns. *)
Theorem modular_inverse_failures (a m : Z) :
  (Z.gcd a m <> 1 -> ModularArithmetic.modular_inverse a m = inl NoModularInverse) /\
  (a < 0 -> ModularArithmetic.modular_inverse a m = inl NoModularInverse) /\
  (m = 0 -> exists e, ModularArithmetic.modular_inverse a m = inl e) /\
  (0 < a -> m <> 0 -> Z.gcd a m = 1 -> exists x, ModularArithmetic.modular_inverse a m = inr x).
Proof.
  pose proof (extended_gcd_general a m) as Hc.
  unfold ModularArithmetic.modular_inverse.
  destruct (ModularArithmetic.extended_gcd a m) as [[g x] y].
  destruct Hc as (_ & Hg & _ & Hp & Hn).
  split; [|split; [|split]].
  - intros G. destruct (Z.eqb_spec g 1); [lia | reflexivity].
  - intros A. destruct (Z.eqb_spec g 1); [lia | reflexivity].
  - intros ->. destruct (Z.eqb_spec g 1); cbn [negb Z.eqb]; eexists; reflexivity.
  - intros A M G. destruct (Z.eqb_spec g 1); [|lia]. cbn [negb].
    destruct (Z.eqb_spec m 0); [contradiction | eexists; reflexivity].
Qed.

(** X3: a value [x] returned by [modular_inverse(a, m)] is an inverse of
    [a] modulo [m]: [(a x) % m = 1 % m]; it lies in [[0, m)] for [m > 0]
    and in [(m, 0]] for [m < 0]. *)
Theorem modular_inverse_correct (a m x : Z) :
  ModularArithmetic.modular_inverse a m = inr x ->
  (a * x) mod m = 1 mod m /\ (0 < m -> 0 <= x < m) /\ (m < 0 -> m < x <= 0).
Proof. apply modular_inverse_inr. Qed.

(** X4: [mod_divide(a, b, m)] raises exactly the error of
    [modular_inverse(b, m)]; a returned [q] satisfies [(b q) % m = a % m]
    and lies in [[0, m)] for [m > 0], in [(m, 0]] for [m < 0]. *)
Theorem mod_divide_spec (a b m : Z) :
  (forall e, ModularArithmetic.mod_divide a b m = inl e <->
             ModularArithmetic.modular_inverse b m = inl e) /\
  (forall q, ModularArithmetic.mod_divide a b m = inr q ->
     (b * q) mod m = a mod m /\ (0 < m -> 0 <= q < m) /\ (m < 0 -> m < q <= 0)).
Proof.
  unfold ModularArithmetic.mod_divide.
  destruct (ModularArithmetic.modular_inverse b m) as [e0|v] eqn:Hi.
  - split; [intros e; split; auto | intros q F; discriminate].
  - pose proof (modular_inverse_m_nonzero _ _ _ Hi) as M0.
    destruct (modular_inverse_inr _ _ _ Hi) as (Hv & _).
    destruct (Z.eqb_spec m 0) as [|_]; [contradiction|].
    split; [intros e; split; discriminate|].
    intros q Hq. injection Hq as <-.
    split; [|split; intros; [apply Z.mod_pos_bound | apply Z.mod_neg_bound]; lia].
    rewrite Z.mul_mod_idemp_r by exact M0.
    replace (b * (a * v)) with (a * (b * v)) by ring.
    rewrite <- Z.mul_mod_idemp_r, Hv, Z.mul_mod_idemp_r, Z.mul_1_r by exact M0.
    reflexivity.
Qed.

(** X5: [is_coprime(a, b)] is true only when [gcd(a, b) = 1]; for [a > 0]
    it is exactly [gcd(a, b) == 1], and for [a < 0] it is always false. *)
Theorem is_coprime_spec (a b : Z) :
  (ModularArithmetic.is_coprime a b = true -> Z.gcd a b = 1) /\
  (0 < a -> ModularArithmetic.is_coprime a b = (Z.gcd a b =? 1)) /\
  (a < 0 -> ModularArithmetic.is_coprime a b = false).
Proof.
  pose proof (extended_gcd_general a b) as Hc.
  unfold ModularArithmetic.is_coprime.
  destruct (ModularArithmetic.extended_gcd a b) as [[g x] y].
  destruct Hc as (_ & Hg & _ & Hp & Hn).
  split; [|split].
  - intros G. apply Z.eqb_eq in G. lia.
  - intros A. f_equal. lia.
  - intros A. apply Z.eqb_neq. lia.
Qed.

(** ** [EllipticCurve.__init__] *)

Lemma discriminant_value (a b : Q) :
  (discriminant (mkCurve a b) == -16 * (4 * (a * a * a) + 27 * (b * b)))%Q.
Proof.
  unfold discriminant, pow2, pow3, Frac.mul, Frac.add, Frac.of_int. cbn [ca cb].
  rewrite !Qred_correct. unfold inject_Z. ring.
Qed.

(** X6: [EllipticCurve(a, b)] raises InvalidCurve exactly when
    [4a^3 + 27b^2 = 0] and otherwise builds the curve with coefficients
    [a] and [b]; it raises no other error. *)
Theorem make_curve_spec (a b : Q) :
  (make_curve a b = inl InvalidCurve <-> (4 * (a * a * a) + 27 * (b * b) == 0)%Q) /\
  (~ (4 * (a * a * a) + 27 * (b * b) == 0)%Q -> make_curve a b = inr (mkCurve a b)) /\
  (forall e, make_curve a b = inl e -> e = InvalidCurve).
Proof.
  pose proof (discriminant_value a b) as Hd.
  unfold make_curve.
  destruct (Frac.eqb (discriminant (mkCurve a b)) 0) eqn:E.
  - apply eqb_true in E. rewrite E in Hd.
    assert (H0 : (4 * (a * a * a) + 27 * (b * b) == 0)%Q).
    { set (X := (4 * (a * a * a) + 27 * (b * b))%Q) in *.
      symmetry in Hd. apply Qmult_integral in Hd as [F|F]; [discriminate F | exact F]. }
    split; [split; auto|]. split; [intros N; contradiction|].
    intros e F. injection F as <-. reflexivity.
  - apply eqb_false in E.
    split; [split; [discriminate|] | split; [reflexivity | discriminate]].
    intros F. exfalso. apply E. rewrite Hd, F. reflexivity.
Qed.

(** ** The group law: identity, inverse, negation *)

Lemma eqb_iff x y x' y' : (x == y <-> x' == y') -> Frac.eqb x y = Frac.eqb x' y'.
Proof.
  intros H. destruct (Frac.eqb x y) eqn:E; symmetry.
  - apply eqb_true. apply H. apply eqb_true. exact E.
  - apply eqb_false. intros F. apply (proj1 (eqb_false _ _) E). apply H. exact F.
Qed.

Lemma neg_neg y : (Frac.neg (Frac.neg y) == y)%Q.
Proof. unfold Frac.neg. rewrite !Qred_correct. ring. Qed.

Lemma add_negate_r c P : add c P (negate P) = Identity.
Proof.
  destruct P as [|x y]; [reflexivity|]. cbn [negate add].
  assert (E1 : Frac.eqb x x = true) by (apply eqb_true; reflexivity).
  assert (E2 : Frac.eqb y (Frac.neg (Frac.neg y)) = true)
    by (apply eqb_true; rewrite neg_neg; reflexivity).
  rewrite E1, E2. reflexivity.
Qed.

Lemma add_negate_l c P : add c (negate P) P = Identity.
Proof.
  destruct P as [|x y]; [reflexivity|]. cbn [negate add].
  assert (E1 : Frac.eqb x x = true) by (apply eqb_true; reflexivity).
  assert (E2 : Frac.eqb (Frac.neg y) (Frac.neg y) = true) by (apply eqb_true; reflexivity).
  rewrite E1, E2. reflexivity.
Qed.

Lemma negate_compat P P' : point_eqb P P' = true -> point_eqb (negate P) (negate P') = true.
Proof.
  destruct P as [|x y], P' as [|x' y']; try discriminate; [reflexivity|].
  cbn [negate]. rewrite !point_eqb_finite. unfold Frac.neg. rewrite !Qred_correct.
  intros [H1 H2]. split; [exact H1 | rewrite H2; reflexivity].
Qed.

Lemma negate_negate P : point_eqb (negate (negate P)) P = true.
Proof.
  destruct P as [|x y]; [reflexivity|]. cbn [negate]. apply point_eqb_finite.
  split; [reflexivity | apply neg_neg].
Qed.

Ltac frac_out :=
  unfold point_from_slope, pow2, Frac.sub, Frac.mul, Frac.div, Frac.add, Frac.neg,
    Frac.of_int, inject_Z; rewrite ?Qred_correct.

Lemma negate_add_eq c P Q : point_eqb (negate (add c P Q)) (add c (negate P) (negate Q)) = true.
Proof.
  destruct P as [|x1 y1]; [apply point_eqb_refl|].
  destruct Q as [|x2 y2]; [rewrite add_identity_r; apply point_eqb_refl|].
  cbn [negate add point_eqb].
  rewrite (eqb_iff (Frac.neg y1) (Frac.neg (Frac.neg y2)) y1 (Frac.neg y2))
    by (unfold Frac.neg; rewrite !Qred_correct; split; intros; lra).
  rewrite (eqb_iff (Frac.neg y1) (Frac.neg y2) y1 y2)
    by (unfold Frac.neg; rewrite !Qred_correct; split; intros; lra).
  rewrite (eqb_iff (Frac.neg y1) 0 y1 0)
    by (unfold Frac.neg; rewrite !Qred_correct; split; intros; lra).
  destruct (Frac.eqb x1 x2 && Frac.eqb y1 (Frac.neg y2)); [reflexivity|].
  destruct (Frac.eqb x1 x2 && Frac.eqb y1 y2).
  - destruct (Frac.eqb y1 0) eqn:E3; [reflexivity|]. apply eqb_false in E3.
    cbn [negate point_from_slope]. apply point_eqb_finite. frac_out.
    split; field; intro F; apply E3; lra.
  - destruct (Frac.eqb x2 x1) eqn:E3; [reflexivity|]. apply eqb_false in E3.
    cbn [negate point_from_slope]. apply point_eqb_finite. frac_out.
    split; field; intro F; apply E3; lra.
Qed.

(** X7: the neutral element and inverses, on every curve and for every
    point: [add(P, O) = P], [add(O, P) = P], and [P] plus its negation
    [Point(P.x, -P.y)] (as built by [scalar_multiply]) is [O] on either
    side. *)
Theorem add_identity_inverse (c : Curve) (P : Point) :
  add c P Identity = P /\ add c Identity P = P /\
  add c P (negate P) = Identity /\ add c (negate P) P = Identity.
Proof.
  split; [apply add_identity_r|]. split; [apply add_identity_l|].
  split; [apply add_negate_r | apply add_negate_l].
Qed.

(** X8: negation distributes over [add], on every curve and for all
    points: [-(P + Q) = (-P) + (-Q)] as Points (Fraction equality). *)
Theorem negate_add (c : Curve) (P Q : Point) :
  point_eqb (negate (add c P Q)) (add c (negate P) (negate Q)) = true.
Proof. apply negate_add_eq. Qed.

(** X9: [double(P)] is [O] exactly when [P] is [O] or [P.y == 0], on every
    curve. *)
Theorem double_identity_iff (c : Curve) (P : Point) :
  double c P = Identity <->
  P = Identity \/ exists x y, P = Finite x y /\ (y == 0)%Q.
Proof.
  destruct P as [|x y]; [split; auto|].
  unfold double. cbn [add].
  assert (E1 : Frac.eqb x x = true) by (apply eqb_true; reflexivity).
  rewrite E1. cbn [andb].
  rewrite (eqb_iff y (Frac.neg y) y 0)
    by (unfold Frac.neg; rewrite Qred_correct; split; intros; lra).
  rewrite point_eqb_refl. destruct (Frac.eqb y 0) eqn:E.
  - apply eqb_true in E. split; [intros _; right; exists x, y; auto | reflexivity].
  - apply eqb_false in E. split; [unfold point_from_slope; intros F; discriminate F|].
    intros [F|(x' & y' & F & G)]; [discriminate|]. injection F as -> ->. contradiction.
Qed.

(** ** Closure, associativity and scalar multiples *)

Lemma add_comm_eq (c : Curve) (P Q : Point) : add c P Q = add c Q P.
Proof.
  destruct P as [|x1 y1], Q as [|x2 y2]; try reflexivity.
  unfold add. rewrite (eqb_sym x1 x2), (neg_test_sym y1 y2).
  destruct (Frac.eqb x2 x1 && Frac.eqb y2 (Frac.neg y1)); [reflexivity|].
  rewrite (point_eqb_sym (Finite x1 y1)).
  destruct (point_eqb (Finite x2 y2) (Finite x1 y1)) eqn:E.
  - simpl in E. apply andb_true_iff in E as [Ex Ey].
    apply eqb_true in Ex, Ey.
    rewrite (eqb_compat y1 y2 0 0) by (auto; symmetry; auto; reflexivity).
    destruct (Frac.eqb y2 0); [reflexivity|].
    apply point_from_slope_compat; auto; try (symmetry; auto).
    unfold Frac.div, Frac.add, Frac.mul, pow2.
    qred_out. rewrite Ex, Ey. reflexivity.
  - rewrite (eqb_sym x2 x1).
    destruct (Frac.eqb x1 x2) eqn:F; [reflexivity|].
    apply eqb_false in F.
    apply point_from_slope_chord_sym. intro G. apply F. symmetry. exact G.
Qed.

Lemma scalar_loop_on_curve c p : forall R A,
  is_on_curve c R = true -> is_on_curve c A = true -> is_on_curve c (scalar_loop c R A p) = true.
Proof.
  induction p as [p IH | p IH |]; intros R A HR HA; cbn [scalar_loop]; unfold double.
  - apply IH; apply add_on_curve; auto.
  - apply IH; [exact HR | apply add_on_curve; auto].
  - apply add_on_curve; auto.
Qed.

Lemma scalar_multiply_on_curve c P n :
  is_on_curve c P = true -> is_on_curve c (scalar_multiply c P n) = true.
Proof.
  intros HP. destruct n as [|p|p]; cbn [scalar_multiply]; [reflexivity | |];
    apply scalar_loop_on_curve; auto using negate_on_curve.
Qed.

Lemma scalar_loop_compat c p : forall R R' A A',
  point_eqb R R' = true -> point_eqb A A' = true ->
  point_eqb (scalar_loop c R A p) (scalar_loop c R' A' p) = true.
Proof.
  induction p as [p IH | p IH |]; intros R R' A A' HR HA; cbn [scalar_loop]; unfold double.
  - apply IH; apply add_compat; auto.
  - apply IH; [exact HR | apply add_compat; auto].
  - apply add_compat; auto.
Qed.

Lemma scalar_loop_negate c p : forall R A,
  point_eqb (scalar_loop c (negate R) (negate A) p) (negate (scalar_loop c R A p)) = true.
Proof.
  induction p as [p IH | p IH |]; intros R A; cbn [scalar_loop]; unfold double.
  - eapply point_eqb_trans; [|apply IH]. apply scalar_loop_compat;
      rewrite point_eqb_sym; apply negate_add_eq.
  - eapply point_eqb_trans; [|apply IH]. apply scalar_loop_compat;
      [apply point_eqb_refl | rewrite point_eqb_sym; apply negate_add_eq].
  - rewrite point_eqb_sym. apply negate_add_eq.
Qed.

(** X10: the curve is closed under the group law: for points on the curve
    (any curve), [add(P, Q)], [double(P)], [scalar_multiply(P, n)] for
    every integer [n], and the negation [Point(P.x, -P.y)] lie on it. *)
Theorem curve_closed (c : Curve) (P Q : Point) :
  is_on_curve c P = true -> is_on_curve c Q = true ->
  is_on_curve c (add c P Q) = true /\ is_on_curve c (double c P) = true /\
  is_on_curve c (negate P) = true /\
  (forall n, is_on_curve c (scalar_multiply c P n) = true).
Proof.
  intros HP HQ. split; [apply add_on_curve; auto|].
  split; [apply add_on_curve; auto|]. split; [apply negate_on_curve; auto|].
  intros n. apply scalar_multiply_on_curve. exact HP.
Qed.

(** X11: on a curve built by [EllipticCurve(a, b)], [add] is associative on
    the points of the curve, up to [Point.__eq__]. *)
Theorem add_associative (a b : Q) (c : Curve) (P Q R : Point) :
  make_curve a b = inr c ->
  is_on_curve c P = true -> is_on_curve c Q = true -> is_on_curve c R = true ->
  point_eqb (add c (add c P Q) R) (add c P (add c Q R)) = true.
Proof.
  intros Hm. apply add_assoc_on_curve. exact (discriminant_nonzero a b c Hm).
Qed.

(** X12: [scalar_multiply(P, -n)] is the negation of [scalar_multiply(P, n)]
    (as Points), for every integer [n], point [P] and curve. *)
Theorem scalar_multiply_neg (c : Curve) (P : Point) (n : Z) :
  point_eqb (scalar_multiply c P (- n)) (negate (scalar_multiply c P n)) = true.
Proof.
  destruct n as [|p|p]; cbn [Z.opp scalar_multiply]; [reflexivity| |].
  - apply (scalar_loop_negate c p Identity P).
  - eapply point_eqb_trans; [|apply (scalar_loop_negate c p Identity (negate P))].
    apply scalar_loop_compat; [reflexivity|]. rewrite point_eqb_sym. apply negate_negate.
Qed.

Section ZMultiples.
Variables (c : Curve) (P : Point).
Hypothesis Hdisc : ~ (4 * (ca c * ca c * ca c) + 27 * (cb c * cb c) == 0)%Q.
Hypothesis HP : is_on_curve c P = true.

Local Abbreviation M := (mult_naive c P).
Local Abbreviation zm k :=
  (if 0 <=? k then mult_naive c P (Z.to_nat k) else negate (mult_naive c P (Z.to_nat (- k)))).

Lemma mult_naive_negate Q k :
  point_eqb (mult_naive c (negate Q) k) (negate (mult_naive c Q k)) = true.
Proof.
  induction k as [|k IH]; [reflexivity|]. cbn [mult_naive].
  apply point_eqb_trans with (add c (negate (mult_naive c Q k)) (negate Q)).
  - apply add_compat; [exact IH | apply point_eqb_refl].
  - rewrite point_eqb_sym. apply negate_add_eq.
Qed.

Lemma M_on k : is_on_curve c (M k) = true.
Proof. apply mult_naive_on_curve. exact HP. Qed.

Lemma sub_mult_ge i j : (j <= i)%nat ->
  point_eqb (add c (M i) (negate (M j))) (M (i - j)) = true.
Proof.
  intros Hij.
  apply point_eqb_trans with (add c (add c (M (i - j)) (M j)) (negate (M j))).
  - apply add_compat; [|apply point_eqb_refl].
    rewrite point_eqb_sym. replace i with (i - j + j)%nat at 2 by lia.
    apply mult_naive_add; assumption.
  - eapply point_eqb_trans; [apply add_assoc_on_curve; auto using M_on, negate_on_curve|].
    rewrite add_negate_r, add_identity_r. apply point_eqb_refl.
Qed.

Lemma sub_mult_lt i j : (i < j)%nat ->
  point_eqb (add c (M i) (negate (M j))) (negate (M (j - i))) = true.
Proof.
  intros Hij.
  apply point_eqb_trans with (add c (M i) (add c (negate (M i)) (negate (M (j - i))))).
  - apply add_compat; [apply point_eqb_refl|].
    apply point_eqb_trans with (negate (add c (M i) (M (j - i)))); [|apply negate_add_eq].
    apply negate_compat. rewrite point_eqb_sym. replace j with (i + (j - i))%nat at 2 by lia.
    apply mult_naive_add; assumption.
  - rewrite point_eqb_sym.
    eapply point_eqb_trans; [|apply add_assoc_on_curve; auto using M_on, negate_on_curve].
    rewrite add_negate_r, add_identity_l. apply point_eqb_refl.
Qed.

Lemma zm_add_mixed m n : 0 <= m -> n < 0 ->
  point_eqb (add c (M (Z.to_nat m)) (negate (M (Z.to_nat (- n))))) (zm (m + n)) = true.
Proof.
  intros Hm Hn. destruct (Z.leb_spec 0 (m + n)).
  - replace (Z.to_nat (m + n)) with (Z.to_nat m - Z.to_nat (- n))%nat by lia.
    apply sub_mult_ge. lia.
  - replace (Z.to_nat (- (m + n))) with (Z.to_nat (- n) - Z.to_nat m)%nat by lia.
    apply sub_mult_lt. lia.
Qed.

Lemma zm_add m n : point_eqb (add c (zm m) (zm n)) (zm (m + n)) = true.
Proof.
  destruct (Z.leb_spec 0 m) as [Hm|Hm], (Z.leb_spec 0 n) as [Hn|Hn].
  - replace (0 <=? m + n) with true by (symmetry; apply Z.leb_le; lia).
    replace (Z.to_nat (m + n)) with (Z.to_nat m + Z.to_nat n)%nat by lia.
    apply mult_naive_add; assumption.
  - apply zm_add_mixed; lia.
  - rewrite add_comm_eq, Z.add_comm. apply zm_add_mixed; lia.
  - replace (0 <=? m + n) with false by (symmetry; apply Z.leb_gt; lia).
    replace (Z.to_nat (- (m + n))) with (Z.to_nat (- m) + Z.to_nat (- n))%nat by lia.
    rewrite point_eqb_sym.
    eapply point_eqb_trans; [|apply negate_add_eq].
    apply negate_compat. rewrite point_eqb_sym. apply mult_naive_add; assumption.
Qed.

Lemma zm_neg k : point_eqb (negate (zm k)) (zm (- k)) = true.
Proof.
  destruct (Z.leb_spec 0 k) as [Hk|Hk]; destruct (Z.leb_spec 0 (- k)) as [Hk'|Hk'].
  - replace k with 0 by lia. reflexivity.
  - rewrite Z.opp_involutive. apply point_eqb_refl.
  - apply negate_negate.
  - lia.
Qed.

Lemma scalar_zm n : point_eqb (scalar_multiply c P n) (zm n) = true.
Proof.
  destruct n as [|p|p]; cbn [scalar_multiply]; [reflexivity| |].
  - apply scalar_loop_naive; assumption.
  - eapply point_eqb_trans; [apply scalar_loop_naive; auto using negate_on_curve|].
    apply mult_naive_negate.
Qed.

Lemma mult_of_zm Q m : point_eqb Q (zm m) = true ->
  forall k, point_eqb (mult_naive c Q k) (zm (Z.of_nat k * m)) = true.
Proof.
  intros HQ k. induction k as [|k IH]; [reflexivity|].
  cbn [mult_naive]. replace (Z.of_nat (S k) * m) with (Z.of_nat k * m + m) by lia.
  eapply point_eqb_trans; [|apply zm_add]. apply add_compat; assumption.
Qed.

End ZMultiples.

(** X13: on a curve built by [EllipticCurve(a, b)] and for [P] on it,
    [scalar_multiply] is additive in the multiplier: for all integers [m]
    and [n], [(m + n)P = mP + nP] as Points. *)
Theorem scalar_multiply_add (a b : Q) (c : Curve) (P : Point) :
  make_curve a b = inr c -> is_on_curve c P = true ->
  forall m n, point_eqb (scalar_multiply c P (m + n))
                        (add c (scalar_multiply c P m) (scalar_multiply c P n)) = true.
Proof.
  intros Hm HP m n. pose proof (discriminant_nonzero a b c Hm) as Hd.
  eapply point_eqb_trans; [apply (scalar_zm c P Hd HP)|].
  rewrite point_eqb_sym. eapply point_eqb_trans; [|apply (zm_add c P Hd HP)].
  apply add_compat; apply (scalar_zm c P Hd HP).
Qed.

(** X14: on a curve built by [EllipticCurve(a, b)] and for [P] on it,
    scalar multiplications compose: [scalar_multiply(scalar_multiply(P, m), n)]
    equals [scalar_multiply(P, m * n)] as Points, for all integers. *)
Theorem scalar_multiply_compose (a b : Q) (c : Curve) (P : Point) :
  make_curve a b = inr c -> is_on_curve c P = true ->
  forall m n, point_eqb (scalar_multiply c (scalar_multiply c P m) n)
                        (scalar_multiply c P (m * n)) = true.
Proof.
  intros Hm HP m n. pose proof (discriminant_nonzero a b c Hm) as Hd.
  set (Q := scalar_multiply c P m).
  assert (HQ : is_on_curve c Q = true) by (apply scalar_multiply_on_curve; exact HP).
  pose proof (mult_of_zm c P Hd HP Q m (scalar_zm c P Hd HP m)) as HM.
  eapply point_eqb_trans; [apply (scalar_zm c Q Hd HQ n)|].
  rewrite point_eqb_sym. eapply point_eqb_trans; [apply (scalar_zm c P Hd HP)|].
  destruct (Z.leb_spec 0 n) as [Hn|Hn].
  - rewrite point_eqb_sym.
    replace (m * n) with (Z.of_nat (Z.to_nat n) * m) by (rewrite Z2Nat.id by lia; ring). apply HM.
  - eapply point_eqb_trans; [|apply negate_compat; rewrite point_eqb_sym; apply HM].
    rewrite point_eqb_sym. eapply point_eqb_trans; [apply zm_neg|].
    replace (- (Z.of_nat (Z.to_nat (- n)) * m)) with (m * n) by (rewrite Z2Nat.id by lia; ring). apply point_eqb_refl.
Qed.

(** ** [find_order] and [EllipticCurve.is_torsion] *)

Lemma find_order_loop_scan c P cur n k ms :
  find_order_loop c P cur n k = fst (torsion_scan c P cur n k ms).
Proof.
  revert cur n ms. induction k as [|k IH]; intros cur n ms;
    cbn [find_order_loop torsion_scan]; [reflexivity|].
  destruct (is_identity cur); [reflexivity | apply IH].
Qed.

Lemma find_order_cases c P mo :
  match find_order c P mo with
  | Some o => exists n, o = Z.of_nat n /\ (1 <= n)%nat /\ Z.of_nat n <= Z.max 1 mo /\
      mult_naive c P n = Identity /\
      (forall m, (1 <= m < n)%nat -> mult_naive c P m <> Identity)
  | None => forall m, (1 <= m)%nat -> Z.of_nat m <= Z.max 1 mo -> mult_naive c P m <> Identity
  end.
Proof.
  unfold find_order. destruct (is_identity P) eqn:I.
  - apply is_identity_true in I. subst P. exists 1%nat.
    split; [reflexivity|]. split; [lia|]. split; [lia|]. split; [reflexivity|]. intros; lia.
  - rewrite (find_order_loop_scan c P P 1 (Z.to_nat mo) []).
    change (torsion_scan c P P 1 (Z.to_nat mo) [])
      with (torsion_scan c P (mult_naive c P 1) (Z.of_nat 1) (Z.to_nat mo) []).
    destruct (torsion_scan c P (mult_naive c P 1) (Z.of_nat 1) (Z.to_nat mo) []) as [r ms] eqn:S.
    apply torsion_scan_result in S. cbn [fst]. destruct r as [o|].
    + destruct S as (n & Ho & Hn & Hid & Hmin & _).
      exists n. split; [exact Ho|]. split; [lia|]. split; [lia|]. split; assumption.
    + destruct S as [Hall _]. intros m Hm Hmo.
      destruct (Nat.eq_dec m 1) as [->|Hm1].
      * rewrite mult_naive_one. intros F. rewrite F in I. discriminate.
      * apply Hall. lia.
Qed.

Lemma find_order_iff c P mo :
  (forall o, find_order c P mo = Some o <->
     exists n, o = Z.of_nat n /\ (1 <= n)%nat /\ Z.of_nat n <= Z.max 1 mo /\
       mult_naive c P n = Identity /\
       (forall m, (1 <= m < n)%nat -> mult_naive c P m <> Identity)) /\
  (find_order c P mo = None <->
     forall m, (1 <= m)%nat -> Z.of_nat m <= Z.max 1 mo -> mult_naive c P m <> Identity).
Proof.
  pose proof (find_order_cases c P mo) as H.
  destruct (find_order c P mo) as [o'|].
  - destruct H as (n' & Ho' & Hn' & Hb' & Hid' & Hmin'). split.
    + intros o. split.
      * intros E. injection E as <-. exists n'. auto.
      * intros (n & Ho & Hn & Hb & Hid & Hmin).
        assert (n = n') by (apply (least_unique c P); auto). subst. reflexivity.
    + split; [discriminate|]. intros Hall. exfalso. apply (Hall n'); auto.
  - split.
    + intros o. split; [discriminate|]. intros (n & _ & Hn & Hb & Hid & _).
      exfalso. apply (H n); auto.
    + split; auto.
Qed.

Lemma mult_naive_of_identity c k : mult_naive c Identity k = Identity.
Proof. induction k as [|k IH]; [reflexivity|]. cbn [mult_naive]. rewrite IH. reflexivity. Qed.

Section Period.
Variables (c : Curve) (P : Point).
Hypothesis Hdisc : ~ (4 * (ca c * ca c * ca c) + 27 * (cb c * cb c) == 0)%Q.
Hypothesis HP : is_on_curve c P = true.
Variable n : Z.
Hypothesis Hn : 0 < n.
Hypothesis Hid : mult_naive c P (Z.to_nat n) = Identity.

Local Abbreviation zm k :=
  (if 0 <=? k then mult_naive c P (Z.to_nat k) else negate (mult_naive c P (Z.to_nat (- k)))).

Lemma zm_multiple_identity q : point_eqb (zm (q * n)) Identity = true.
Proof.
  assert (HI : point_eqb Identity (zm n) = true).
  { replace (0 <=? n) with true by (symmetry; apply Z.leb_le; lia). rewrite Hid. reflexivity. }
  pose proof (mult_of_zm c P Hdisc HP Identity n HI) as HM.
  destruct (Z.leb_spec 0 q) as [Hq|Hq].
  - specialize (HM (Z.to_nat q)). rewrite mult_naive_of_identity, Z2Nat.id in HM by exact Hq.
    rewrite point_eqb_sym. exact HM.
  - specialize (HM (Z.to_nat (- q))). rewrite mult_naive_of_identity, Z2Nat.id in HM by lia.
    replace (q * n) with (- (- q * n)) by ring.
    rewrite point_eqb_sym. eapply point_eqb_trans; [|apply zm_neg; assumption].
    change Identity with (negate Identity). apply negate_compat. exact HM.
Qed.

Lemma zm_period k : point_eqb (zm k) (zm (k mod n)) = true.
Proof.
  assert (Ek : k = (k / n) * n + k mod n) by (rewrite Z.mul_comm; apply Z_div_mod_eq_full).
  set (q := k / n) in Ek. set (r := k mod n) in *. clearbody q r. subst k.
  rewrite point_eqb_sym. eapply point_eqb_trans; [|apply zm_add; assumption].
  rewrite <- (add_identity_l c (zm r)) at 1.
  apply add_compat; [rewrite point_eqb_sym; apply zm_multiple_identity | apply point_eqb_refl].
Qed.

End Period.

(** X15: [find_order(P, max_order)] returns [n] exactly when [n] is the
    least [n >= 1] with [nP = O] (repeated addition) and [n <= max_order],
    or [n = 1] for [P = O] whatever [max_order]; it returns None exactly
    when no [n] in [[1, max(1, max_order)]] has [nP = O]. *)
Theorem find_order_spec (c : Curve) (P : Point) (max_order : Z) :
  (forall o, find_order c P max_order = Some o <->
     exists n, o = Z.of_nat n /\ (1 <= n)%nat /\ Z.of_nat n <= Z.max 1 max_order /\
       mult_naive c P n = Identity /\
       (forall m, (1 <= m < n)%nat -> mult_naive c P m <> Identity)) /\
  (find_order c P max_order = None <->
     forall m, (1 <= m)%nat -> Z.of_nat m <= Z.max 1 max_order -> mult_naive c P m <> Identity).
Proof. apply find_order_iff. Qed.

Lemma check_torsion_ec_is_torsion (tf : TorsionFinder) (P : Point) (r : TorsionResult) :
  cache_inv tf -> fst (check_torsion tf P) = inr r ->
  (is_torsion r, order r) = ec_is_torsion (tf_curve tf) P 12.
Proof.
  intros Hinv. destruct tf as [c cache]. unfold cache_inv in Hinv; cbn [tf_curve tf_cache] in *.
  rewrite check_torsion_eq.
  destruct (is_on_curve c P) eqn:Hon; ct_simpl; [|discriminate].
  unfold ec_is_torsion.
  destruct (cache_lookup P cache) as [o|] eqn:L.
  - intros E. injection E as <-. ct_simpl.
    destruct (cache_lookup_in _ _ _ L) as (k & Hin & Hpk).
    rewrite Forall_forall in Hinv. destruct (Hinv _ Hin) as (_ & Ho & Hidk & Hmin).
    assert (T : forall m, mult_naive c P m = Identity <-> mult_naive c k m = Identity)
      by (intro; apply mult_naive_identity_compat; auto).
    replace (find_order c P 12) with (Some o); [reflexivity|]. symmetry.
    apply (proj1 (find_order_iff c P 12) o). exists (Z.to_nat o).
    split; [lia|]. split; [lia|]. split; [lia|]. split; [apply T; exact Hidk|].
    intros m Hm F. apply (Hmin m Hm). apply T. exact F.
  - unfold find_order. destruct (is_identity P) eqn:I.
    + apply is_identity_true in I. subst P. cbn [torsion_scan is_identity].
      intros E. injection E as <-. reflexivity.
    + rewrite (find_order_loop_scan c P P 1 (Z.to_nat 12) []).
      change (Z.to_nat 12) with 12%nat.
      destruct (torsion_scan c P P 1 12 []) as [[n|] ms];
        intros E; cbn [fst] in E; injection E as <-; reflexivity.
Qed.

(** X16: for a finder whose cache holds only correct orders and a point
    [P] on which [check_torsion(P)] returns a result, its [is_torsion] and
    [order] are the pair [EllipticCurve.is_torsion(P, 12)] (i.e.
    [find_order(P, 12)]), whether the order came from the cache or from the
    scan. *)
Theorem check_torsion_find_order (tf : TorsionFinder) (P : Point) (r : TorsionResult) :
  cache_inv tf -> fst (check_torsion tf P) = inr r ->
  (is_torsion r, order r) = ec_is_torsion (tf_curve tf) P 12.
Proof. apply check_torsion_ec_is_torsion. Qed.

(** X17: on a curve built by [EllipticCurve(a, b)], if [find_order(P,
    max_order)] returns [n] for a point [P] on the curve, then [n >= 1],
    [scalar_multiply(P, n)] is [O], and [scalar_multiply(P, k)] equals
    [scalar_multiply(P, k mod n)] for every integer [k]. *)
Theorem find_order_period (a b : Q) (c : Curve) (P : Point) (max_order n : Z) :
  make_curve a b = inr c -> is_on_curve c P = true -> find_order c P max_order = Some n ->
  1 <= n /\ scalar_multiply c P n = Identity /\
  forall k, point_eqb (scalar_multiply c P k) (scalar_multiply c P (k mod n)) = true.
Proof.
  intros Hm HP Ho. pose proof (discriminant_nonzero a b c Hm) as Hd.
  destruct (proj1 (proj1 (find_order_iff c P max_order) n) Ho) as (n' & -> & Hn' & _ & Hid & _).
  assert (Hid' : mult_naive c P (Z.to_nat (Z.of_nat n')) = Identity) by (rewrite Nat2Z.id; exact Hid).
  split; [lia|]. split.
  - apply point_eqb_identity.
    eapply point_eqb_trans; [apply (scalar_zm c P Hd HP)|].
    replace (0 <=? Z.of_nat n') with true by (symmetry; apply Z.leb_le; lia).
    rewrite Hid'. reflexivity.
  - intros k. eapply point_eqb_trans; [apply (scalar_zm c P Hd HP)|].
    rewrite point_eqb_sym. eapply point_eqb_trans; [apply (scalar_zm c P Hd HP)|].
    rewrite point_eqb_sym. apply (zm_period c P Hd HP (Z.of_nat n')); [lia | exact Hid'].
Qed.

(** ** [_integer_divisors] *)

Lemma z_range_in lo hi x : In x (z_range lo hi) <-> lo <= x < hi.
Proof.
  unfold z_range. rewrite in_map_iff. split.
  - intros (i & <- & Hi). apply in_seq in Hi. lia.
  - intros H. exists (Z.to_nat (x - lo)). split; [lia|]. apply in_seq. lia.
Qed.

Lemma zset_add_in x y s : In x (zset_add y s) <-> x = y \/ In x s.
Proof.
  unfold zset_add. destruct (existsb (Z.eqb y) s) eqn:E.
  - apply existsb_exists in E as (z & Hz & Ez). apply Z.eqb_eq in Ez. subst z.
    split; [auto | intros [->|H]; auto].
  - rewrite in_app_iff. cbn [In]. split; intros [H|H]; auto.
    + destruct H as [->|[]]; auto.
Qed.

Lemma zset_add_nodup y s : NoDup s -> NoDup (zset_add y s).
Proof.
  intros Hs. unfold zset_add. destruct (existsb (Z.eqb y) s) eqn:E; [exact Hs|].
  apply NoDup_app; [exact Hs | constructor; [intros [] | constructor] |].
  intros x Hx [Hyx|[]]. subst y. assert (existsb (Z.eqb x) s = true)
    by (apply existsb_exists; exists x; split; [exact Hx | apply Z.eqb_refl]).
  congruence.
Qed.

Lemma divs_fold_in n l s x :
  In x (fold_left (fun s d => if n mod d =? 0 then zset_add (n / d) (zset_add d s) else s) l s) <->
  In x s \/ exists d, In d l /\ n mod d = 0 /\ (x = d \/ x = n / d).
Proof.
  revert s. induction l as [|d l IH]; intros s; cbn [fold_left].
  - split; [auto | intros [H|(d & [] & _)]; exact H].
  - rewrite IH. destruct (Z.eqb_spec (n mod d) 0) as [E|E].
    + rewrite !zset_add_in. split.
      * intros [[H|[H|H]]|(d' & Hd' & H1 & H2)]; [right; exists d; cbn; auto | right; exists d; cbn; auto
          | left; exact H | right; exists d'; cbn; auto].
      * intros [H|(d' & [<-|Hd'] & H1 & [H2|H2])]; auto 6.
        right. exists d'. auto.
        right. exists d'. auto.
    + split.
      * intros [H|(d' & Hd' & H1 & H2)]; [left; exact H | right; exists d'; cbn; auto].
      * intros [H|(d' & [<-|Hd'] & H1 & H2)]; [left; exact H | contradiction |].
        right. exists d'. auto.
Qed.

Lemma signs_fold_in l s x :
  In x (fold_left (fun s d => zset_add (- d) (zset_add d s)) l s) <->
  In x s \/ exists d, In d l /\ (x = d \/ x = - d).
Proof.
  revert s. induction l as [|d l IH]; intros s; cbn [fold_left].
  - split; [auto | intros [H|(d & [] & _)]; exact H].
  - rewrite IH, !zset_add_in. split.
    + intros [[H|[H|H]]|(d' & Hd' & H)]; [right; exists d; cbn; auto | right; exists d; cbn; auto
        | left; exact H | right; exists d'; cbn; auto].
    + intros [H|(d' & [<-|Hd'] & [H|H])]; auto; right; exists d'; auto.
Qed.

Lemma divs_in n x : 0 < n ->
  In x (fold_left (fun s d => if n mod d =? 0 then zset_add (n / d) (zset_add d s) else s)
          (z_range 1 (Z.sqrt n + 1)) []) <-> 1 <= x /\ (x | n).
Proof.
  intros Hn. rewrite divs_fold_in. pose proof (Z.sqrt_spec n ltac:(lia)) as Hs.
  set (r := Z.sqrt n) in *. unfold Z.succ in Hs.
  split.
  - intros [[]|(d & Hd & Hm & [-> | ->])]; apply z_range_in in Hd.
    + split; [lia|]. apply Z.mod_divide; lia.
    + apply Z.mod_divide in Hm; [|lia]. destruct Hm as [k Hk].
      replace (n / d) with k by (first [apply Z.div_unique_exact | symmetry; apply Z.div_unique_exact]; lia).
      split; [nia | exists d; lia].
  - intros [Hx [k Hk]]. right.
    destruct (Z.le_gt_cases x r) as [Hle|Hgt].
    + exists x. split; [apply z_range_in; lia|]. split; [|auto].
      apply Z.mod_divide; [lia | exists k; exact Hk].
    + exists k. assert (Hk1 : 1 <= k) by nia.
      assert (Hkr : k <= r) by nia.
      split; [apply z_range_in; lia|].
      split; [apply Z.mod_divide; [lia | exists x; lia]|].
      right. first [apply Z.div_unique_exact | symmetry; apply Z.div_unique_exact]; lia.
Qed.

(** X18: [_integer_divisors(n)] lists each value once; it is empty for
    [n = 0], and for [n <> 0] it holds exactly the positive and negative
    divisors of [n]: [d] is listed iff [d <> 0] and [d] divides [n]. *)
Theorem integer_divisors_spec (n : Z) :
  NoDup (integer_divisors n) /\ (n = 0 -> integer_divisors n = []) /\
  (n <> 0 -> forall d, In d (integer_divisors n) <-> d <> 0 /\ (d | n)).
Proof.
  split; [|split].
  - unfold integer_divisors. apply fold_left_inv; [constructor|].
    intros s d _ Hs. apply zset_add_nodup, zset_add_nodup, Hs.
  - intros ->. reflexivity.
  - intros Hn d. unfold integer_divisors. rewrite signs_fold_in.
    split.
    + intros [[]|(y & Hy & Hd)]. apply divs_in in Hy; [|lia]. destruct Hy as [Hy1 Hy2].
      apply (proj1 (Z.divide_abs_r _ _)) in Hy2.
      destruct Hd as [-> | ->]; split; try lia; [exact Hy2 | apply Z.divide_opp_l; exact Hy2].
    + intros [Hd0 Hd]. right. exists (Z.abs d). split.
      * apply divs_in; [lia|]. split; [lia|]. apply (proj2 (Z.divide_abs_l _ _)), (proj2 (Z.divide_abs_r _ _)). exact Hd.
      * lia.
Qed.

(** ** [find_torsion_subgroup] and [_analyze_group_structure] *)

Lemma find_order_compat c P P' mo :
  point_eqb P P' = true -> find_order c P mo = find_order c P' mo.
Proof.
  intros H. pose proof (find_order_cases c P mo) as C.
  destruct (find_order c P mo) as [o|] eqn:E.
  - symmetry. apply (proj1 (find_order_iff c P' mo) o).
    destruct C as (n & Ho & Hn & Hb & Hid & Hmin). exists n.
    split; [exact Ho|]. split; [exact Hn|]. split; [exact Hb|].
    split; [apply (mult_naive_identity_compat c P P' n H); exact Hid|].
    intros m Hm F. apply (Hmin m Hm). apply (mult_naive_identity_compat c P P' m H). exact F.
  - symmetry. apply (proj2 (find_order_iff c P' mo)).
    intros m Hm Hb F. apply (C m Hm Hb). apply (mult_naive_identity_compat c P P' m H). exact F.
Qed.

Lemma cache_lookup_compat X P (d : Cache) :
  point_eqb X P = true -> cache_lookup X d = cache_lookup P d.
Proof.
  intros H. induction d as [|[k v] t IH]; [reflexivity|]. cbn [cache_lookup].
  destruct (point_eqb P k) eqn:E.
  - rewrite (point_eqb_trans _ _ _ H E). reflexivity.
  - destruct (point_eqb X k) eqn:F; [|exact IH].
    rewrite point_eqb_sym in H. rewrite (point_eqb_trans _ _ _ H F) in E. discriminate.
Qed.

Lemma classify_all_spec cands : forall tf pts ords,
  cache_inv tf -> Forall (fun P => is_on_curve (tf_curve tf) P = true) cands ->
  (forall X, In X pts -> cache_lookup X ords = find_order (tf_curve tf) X 12) ->
  exists ords', fst (classify_all tf cands pts ords) =
      inr (pts ++ filter (fun P => fst (ec_is_torsion (tf_curve tf) P 12)) cands, ords') /\
    (forall X, In X (pts ++ filter (fun P => fst (ec_is_torsion (tf_curve tf) P 12)) cands) ->
       cache_lookup X ords' = find_order (tf_curve tf) X 12).
Proof.
  induction cands as [|P cands IH]; intros tf pts ords Hinv Hon Hpts.
  - exists ords. cbn [classify_all filter fst]. rewrite app_nil_r. split; [reflexivity | exact Hpts].
  - inversion Hon as [|? ? HP Hrest]; subst.
    destruct (check_torsion_on_curve tf P HP) as [r Hr].
    pose proof (check_torsion_ec_is_torsion tf P r Hinv Hr) as Hec.
    pose proof (check_torsion_inv tf P Hinv) as Hinv'.
    pose proof (check_torsion_curve tf P) as Hc.
    cbn [classify_all filter].
    destruct (check_torsion tf P) as [res tf'] eqn:Ect. cbn [fst snd] in Hr, Hinv', Hc. subst res.
    cbv beta iota. unfold ec_is_torsion in Hec.
    destruct (find_order (tf_curve tf) P 12) as [o|] eqn:Fo; injection Hec as Ht Ho;
      rewrite ?Ht, ?Ho.
    + assert (Hft : fst (ec_is_torsion (tf_curve tf) P 12) = true)
        by (unfold ec_is_torsion; rewrite Fo; reflexivity).
      rewrite Hft.
      assert (Hpts' : forall X, In X (pts ++ [P]) ->
                cache_lookup X (dict_set P o ords) = find_order (tf_curve tf') X 12).
      { intros X HX. rewrite Hc. destruct (point_eqb X P) eqn:XP.
        - rewrite (cache_lookup_compat X P _ XP), cache_lookup_dict_set, <- Fo.
          symmetry. apply find_order_compat. exact XP.
        - rewrite cache_lookup_dict_set_other by exact XP.
          apply in_app_or in HX as [HX|[<-|[]]]; [apply Hpts; exact HX|].
          rewrite point_eqb_refl in XP. discriminate. }
      rewrite <- Hc in Hrest.
      destruct (IH tf' (pts ++ [P]) (dict_set P o ords) Hinv' Hrest Hpts') as (ords' & Hres & Hlk).
      rewrite Hc, <- app_assoc in Hres, Hlk. exists ords'. split; [exact Hres | exact Hlk].
    + assert (Hft : fst (ec_is_torsion (tf_curve tf) P 12) = false)
        by (unfold ec_is_torsion; rewrite Fo; reflexivity).
      rewrite Hft.
      rewrite <- Hc in Hrest, Hpts.
      destruct (IH tf' pts ords Hinv' Hrest Hpts) as (ords' & Hres & Hlk).
      rewrite Hc in Hres, Hlk. exists ords'. split; [exact Hres | exact Hlk].
Qed.

(** X19: for a finder whose cache holds only correct orders, a result of
    [find_torsion_subgroup()] lists as [torsion_points] exactly the
    Nagell-Lutz candidates for which [EllipticCurve.is_torsion(P, 12)] holds
    (the candidate list filtered by it; the iteration order of the
    candidate set is not modelled), each once; [orders[P]] is
    [find_order(P, 12)] for each of them, and [size] is their number. *)
Theorem find_torsion_subgroup_spec (xwin : Z -> Z -> Z -> Z) (tf : TorsionFinder)
    (r : SubgroupResult) (tf' : TorsionFinder) :
  cache_inv tf -> find_torsion_subgroup xwin tf = (inr r, tf') ->
  torsion_points r =
    filter (fun P => fst (ec_is_torsion (tf_curve tf) P 12)) (nagell_lutz_candidates xwin tf) /\
  (forall P, In P (torsion_points r) -> cache_lookup P (orders r) = find_order (tf_curve tf) P 12) /\
  NoDup (torsion_points r) /\ size r = Z.of_nat (List.length (torsion_points r)).
Proof.
  intros Hinv E. unfold find_torsion_subgroup in E.
  destruct (nagell_lutz_candidates_props xwin tf) as (Hall & _ & Hnd).
  assert (Hon : Forall (fun P => is_on_curve (tf_curve tf) P = true)
                       (nagell_lutz_candidates xwin tf))
    by (eapply Forall_impl; [|exact Hall]; intros P [H _]; exact H).
  assert (H0 : forall X, In X [] -> cache_lookup X [] = find_order (tf_curve tf) X 12)
    by (intros X []).
  destruct (classify_all_spec _ tf [] [] Hinv Hon H0) as (ords & Hres & Hlk).
  destruct (classify_all tf (nagell_lutz_candidates xwin tf) [] []) as [res tf1].
  cbn [fst] in Hres. subst res. rewrite app_nil_l in Hlk, E.
  apply NoDup_filter with (f := fun P => fst (ec_is_torsion (tf_curve tf) P 12)) in Hnd.
  remember (filter (fun P => fst (ec_is_torsion (tf_curve tf) P 12))
                   (nagell_lutz_candidates xwin tf)) as pts eqn:Hpts.
  destruct (analyze_group_structure pts ords) as [e|gs].
  - discriminate E.
  - injection E as <- <-. cbn [torsion_points orders size].
    split; [reflexivity|]. split; [exact Hlk|]. split; [exact Hnd | reflexivity].
Qed.

(** X20: [_analyze_group_structure(points, orders)] returns "Trivial" for
    no points and "Z/1Z" for one point, whatever [orders]; with two or more
    points it raises (the [max()] of an empty sequence) exactly when
    [orders] is empty, and it raises nothing else. *)
Theorem analyze_group_structure_edges (pts : list Point) (ords : list (Point * Z)) :
  (pts = [] -> analyze_group_structure pts ords = inr "Trivial"%string) /\
  ((List.length pts = 1)%nat -> analyze_group_structure pts ords = inr "Z/1Z"%string) /\
  ((2 <= List.length pts)%nat -> (analyze_group_structure pts ords = inl EmptyMax <-> ords = [])) /\
  (forall e, analyze_group_structure pts ords = inl e -> e = EmptyMax).
Proof.
  unfold analyze_group_structure.
  split; [intros ->; reflexivity|]. split; [intros H; rewrite H; reflexivity|]. split.
  - intros H.
    destruct (List.length pts =? 0)%nat eqn:E0; [apply Nat.eqb_eq in E0; lia|].
    destruct (List.length pts =? 1)%nat eqn:E1; [apply Nat.eqb_eq in E1; lia|].
    destruct ords as [|[k v] t]; cbn [map max_values]; [split; auto|].
    split; [|discriminate].
    destruct (_ =? _); [discriminate|]. destruct (_ && _); discriminate.
  - intros e.
    destruct (List.length pts =? 0)%nat; [discriminate|].
    destruct (List.length pts =? 1)%nat; [discriminate|].
    destruct (max_values (map snd ords)); [|intros E; injection E; auto].
    destruct (_ =? _); [discriminate|]. destruct (_ && _); discriminate.
Qed.

(** ** Instances of the properties above *)

(** X3 for [a = 3], [m = -7]: the inverse [-2] lies in [(-7, 0]]. *)
Lemma modular_inverse_correct_witness :
  ModularArithmetic.modular_inverse 3 (-7) = inr (-2) /\
  (3 * -2) mod (-7) = 1 mod (-7) /\ (0 < -7 -> 0 <= -2 < -7) /\ (-7 < 0 -> -7 < -2 <= 0).
Proof.
  assert (H : ModularArithmetic.modular_inverse 3 (-7) = inr (-2)) by (vm_compute; reflexivity).
  split; [exact H | exact (modular_inverse_correct 3 (-7) (-2) H)].
Defined.

(** X10 on [y^2 = x^3 - x] at [(0, 0)] and [(1, 0)]. *)
Lemma curve_closed_witness :
  is_on_curve curve_m1_0 (Finite 0 0) = true /\ is_on_curve curve_m1_0 (Finite 1 0) = true /\
  is_on_curve curve_m1_0 (add curve_m1_0 (Finite 0 0) (Finite 1 0)) = true /\
  is_on_curve curve_m1_0 (double curve_m1_0 (Finite 0 0)) = true /\
  is_on_curve curve_m1_0 (negate (Finite 0 0)) = true /\
  (forall n, is_on_curve curve_m1_0 (scalar_multiply curve_m1_0 (Finite 0 0) n) = true).
Proof.
  assert (H1 : is_on_curve curve_m1_0 (Finite 0 0) = true) by (vm_compute; reflexivity).
  assert (H2 : is_on_curve curve_m1_0 (Finite 1 0) = true) by (vm_compute; reflexivity).
  split; [exact H1|]. split; [exact H2|].
  exact (curve_closed curve_m1_0 (Finite 0 0) (Finite 1 0) H1 H2).
Defined.

(** X11 on [y^2 = x^3 - 2] with [(3, 5)], [(3, 5)], [(3, -5)]. *)
Lemma add_associative_witness :
  make_curve 0 (-2) = inr (mkCurve 0 (-2)) /\
  is_on_curve (mkCurve 0 (-2)) (Finite 3 5) = true /\
  is_on_curve (mkCurve 0 (-2)) (Finite 3 (-5)) = true /\
  point_eqb (add (mkCurve 0 (-2)) (add (mkCurve 0 (-2)) (Finite 3 5) (Finite 3 5)) (Finite 3 (-5)))
            (add (mkCurve 0 (-2)) (Finite 3 5) (add (mkCurve 0 (-2)) (Finite 3 5) (Finite 3 (-5))))
  = true.
Proof.
  assert (Hm : make_curve 0 (-2) = inr (mkCurve 0 (-2))) by (vm_compute; reflexivity).
  assert (H1 : is_on_curve (mkCurve 0 (-2)) (Finite 3 5) = true) by (vm_compute; reflexivity).
  assert (H2 : is_on_curve (mkCurve 0 (-2)) (Finite 3 (-5)) = true) by (vm_compute; reflexivity).
  split; [exact Hm|]. split; [exact H1|]. split; [exact H2|].
  exact (add_associative 0 (-2) _ _ _ _ Hm H1 H1 H2).
Defined.

(** X13 on [y^2 = x^3 - 2] at [(3, 5)] with [m = 2], [n = -5]. *)
Lemma scalar_multiply_add_witness :
  make_curve 0 (-2) = inr (mkCurve 0 (-2)) /\
  is_on_curve (mkCurve 0 (-2)) (Finite 3 5) = true /\
  point_eqb (scalar_multiply (mkCurve 0 (-2)) (Finite 3 5) (2 + -5))
            (add (mkCurve 0 (-2)) (scalar_multiply (mkCurve 0 (-2)) (Finite 3 5) 2)
                 (scalar_multiply (mkCurve 0 (-2)) (Finite 3 5) (-5))) = true.
Proof.
  assert (Hm : make_curve 0 (-2) = inr (mkCurve 0 (-2))) by (vm_compute; reflexivity).
  assert (H1 : is_on_curve (mkCurve 0 (-2)) (Finite 3 5) = true) by (vm_compute; reflexivity).
  split; [exact Hm|]. split; [exact H1|].
  exact (scalar_multiply_add 0 (-2) _ _ Hm H1 2 (-5)).
Defined.

(** X14 on [y^2 = x^3 - 2] at [(3, 5)] with [m = 2], [n = -3]. *)
Lemma scalar_multiply_compose_witness :
  make_curve 0 (-2) = inr (mkCurve 0 (-2)) /\
  is_on_curve (mkCurve 0 (-2)) (Finite 3 5) = true /\
  point_eqb (scalar_multiply (mkCurve 0 (-2)) (scalar_multiply (mkCurve 0 (-2)) (Finite 3 5) 2) (-3))
            (scalar_multiply (mkCurve 0 (-2)) (Finite 3 5) (2 * -3)) = true.
Proof.
  assert (Hm : make_curve 0 (-2) = inr (mkCurve 0 (-2))) by (vm_compute; reflexivity).
  assert (H1 : is_on_curve (mkCurve 0 (-2)) (Finite 3 5) = true) by (vm_compute; reflexivity).
  split; [exact Hm|]. split; [exact H1|].
  exact (scalar_multiply_compose 0 (-2) _ _ Hm H1 2 (-3)).
Defined.

(** X16 on [y^2 = x^3 - x] with a fresh finder at [(0, 0)], of order 2. *)
Lemma check_torsion_find_order_witness :
  cache_inv finder_m1_0 /\
  fst (check_torsion finder_m1_0 (Finite 0 0)) = inr (mkResult true (Some 2) [Finite 0 0]) /\
  (true, Some 2) = ec_is_torsion curve_m1_0 (Finite 0 0) 12.
Proof.
  assert (Hi : cache_inv finder_m1_0) by constructor.
  assert (Hr : fst (check_torsion finder_m1_0 (Finite 0 0)) = inr (mkResult true (Some 2) [Finite 0 0]))
    by (vm_compute; reflexivity).
  split; [exact Hi|]. split; [exact Hr|].
  exact (check_torsion_find_order finder_m1_0 (Finite 0 0) _ Hi Hr).
Defined.

(** X17 on [y^2 = x^3 - x] at [(0, 0)], of order 2. *)
Lemma find_order_period_witness :
  make_curve (-1) 0 = inr curve_m1_0 /\ is_on_curve curve_m1_0 (Finite 0 0) = true /\
  find_order curve_m1_0 (Finite 0 0) 12 = Some 2 /\
  1 <= 2 /\ scalar_multiply curve_m1_0 (Finite 0 0) 2 = Identity /\
  forall k, point_eqb (scalar_multiply curve_m1_0 (Finite 0 0) k)
                      (scalar_multiply curve_m1_0 (Finite 0 0) (k mod 2)) = true.
Proof.
  assert (Hm : make_curve (-1) 0 = inr curve_m1_0) by (vm_compute; reflexivity).
  assert (H1 : is_on_curve curve_m1_0 (Finite 0 0) = true) by (vm_compute; reflexivity).
  assert (H2 : find_order curve_m1_0 (Finite 0 0) 12 = Some 2) by (vm_compute; reflexivity).
  split; [exact Hm|]. split; [exact H1|]. split; [exact H2|].
  exact (find_order_period (-1) 0 _ _ 12 2 Hm H1 H2).
Defined.

(** X19 on [y^2 = x^3 - x] with a fresh finder. *)
Lemma find_torsion_subgroup_spec_witness :
  cache_inv finder_m1_0 /\
  exists r tf', find_torsion_subgroup xwin_exact finder_m1_0 = (inr r, tf') /\
    torsion_points r =
      filter (fun P => fst (ec_is_torsion curve_m1_0 P 12)) (nagell_lutz_candidates xwin_exact finder_m1_0) /\
    (forall P, In P (torsion_points r) -> cache_lookup P (orders r) = find_order curve_m1_0 P 12) /\
    NoDup (torsion_points r) /\ size r = Z.of_nat (List.length (torsion_points r)).
Proof.
  assert (Hi : cache_inv finder_m1_0) by constructor.
  split; [exact Hi|].
  destruct (find_torsion_subgroup xwin_exact finder_m1_0) as [[e|r] tf'] eqn:E.
  - vm_compute in E. discriminate E.
  - exists r, tf'. split; [reflexivity|].
    exact (find_torsion_subgroup_spec xwin_exact finder_m1_0 r tf' Hi E).
Defined.
